(** * Summary table of optimal hyper-parameters

  A shallow embedding of [generate_optimal_parameter_table]
  (hyperparameter_tuning.py) and the properties of the summary table it
  builds.

  The function reads a table of tuning results with pandas, groups its
  rows by (configuration, sample_size, iteration), reduces every
  [param_*] column of a group to one value, reorders the columns and
  writes the result as CSV and HTML.

  What belongs to pandas and to the operating system is modelled at the
  level the function observes:
  - a [DataFrame] is what [pd.read_csv] hands back: named columns, each a
    [Series] with one of the dtypes the CSV reader infers;
  - the text parser and the two renderers are parameters of the
    development ([parse_csv], [render_csv], [render_html]);
  - files live in a store keyed by path, next to the standard output. *)

From Stdlib Require Import ZArith List Ascii String Floats.SpecFloat.
From stdpp Require Import base option list sorting gmap strings.

Local Open Scope string_scope.
Local Open Scope list_scope.

(** ** Python strings

  Names are kept as UTF-8 byte strings; [str.startswith], [str.replace]
  with an ASCII pattern, and the code-point order used by [sorted] are
  the same on the bytes as on the code points. *)

Module Str.

(** [s.startswith(p)] *)
Fixpoint startswith (p s : string) : bool :=
  match p, s with
  | EmptyString, _ => true
  | String a p', String b s' => if Ascii.eqb a b then startswith p' s' else false
  | String _ _, EmptyString => false
  end.

(** Left-to-right scan of [s.replace(old, new)] for a non-empty [old]:
    [skip] counts the characters of a matched occurrence still to be
    dropped, so occurrences do not overlap and replaced text is not
    scanned again. *)
Fixpoint replace_scan (old new : string) (skip : nat) (s : string) : string :=
  match s with
  | EmptyString => EmptyString
  | String c s' =>
      match skip with
      | S k => replace_scan old new k s'
      | O =>
          if startswith old s
          then new ++ replace_scan old new (String.length old - 1) s'
          else String c (replace_scan old new 0 s')
      end
  end.

(** [s.replace(old, new)], every occurrence.  With an empty [old] Python
    puts [new] before every character and at the end. *)
Fixpoint intersperse_new (new s : string) : string :=
  match s with
  | EmptyString => new
  | String c s' => new ++ String c (intersperse_new new s')
  end.

Definition replace (old new s : string) : string :=
  match old with
  | EmptyString => intersperse_new new s
  | String _ _ => replace_scan old new 0 s
  end.

(** Order of [str] under [<=]: by code point, that is by byte. *)
Definition le (s1 s2 : string) : Prop := String.leb s1 s2 = true.

#[global] Instance le_dec : RelDecision le.
Proof. intros s1 s2; unfold le; apply _. Defined.

(** [sorted(names)] *)
Definition sorted (l : list string) : list string := merge_sort le l.

(** [sub in s] *)
Fixpoint contains (sub s : string) : bool :=
  startswith sub s ||
  match s with
  | EmptyString => false
  | String _ s' => contains sub s'
  end.

(** [s[n:]] *)
Fixpoint drop (n : nat) (s : string) : string :=
  match n, s with
  | S n', String _ s' => drop n' s'
  | _, _ => s
  end.

(** [s.removeprefix(p)] *)
Definition removeprefix (p s : string) : string :=
  if startswith p s then drop (String.length p) s else s.

(** Line feed, as in ["\n"]. *)
Definition nl : string := String (ascii_of_nat 10) EmptyString.

End Str.


(** ** Cell values

    A cell is an integer (an int64, or a Python [int] of any size in an
    object column), a float64, a bool or a [str].  A missing cell is the
    float NaN, in numeric and in object columns alike. *)

Inductive value :=
| VInt (z : Z)
| VFloat (f : spec_float)
| VBool (b : bool)
| VStr (s : string).

Definition NaN : value := VFloat S754_nan.

(** [pd.isna(v)] *)
Definition isna (v : value) : bool :=
  match v with
  | VFloat S754_nan => true
  | _ => false
  end.

Definition notna (v : value) : bool := negb (isna v).

Definition float_isnan (f : spec_float) : bool :=
  match f with
  | S754_nan => true
  | _ => false
  end.

(** Equality of two cells as pandas' hash tables see it when they count or
    group values: by value inside one kind (so [0.0] and [-0.0] are the
    same float), never across kinds. *)
Definition value_eqb (v1 v2 : value) : bool :=
  match v1, v2 with
  | VInt a, VInt b => Z.eqb a b
  | VFloat a, VFloat b => SFeqb a b
  | VBool a, VBool b => Bool.eqb a b
  | VStr a, VStr b => String.eqb a b
  | _, _ => false
  end.

Definition kind_rank (v : value) : nat :=
  match v with
  | VBool _ => 0
  | VInt _ => 1
  | VFloat _ => 2
  | VStr _ => 3
  end.

(** Order of two cells of one column.  A column holds one kind of value,
    so only the four diagonal cases are ever compared; the last case
    makes the function total. *)
Definition value_compare (v1 v2 : value) : comparison :=
  match v1, v2 with
  | VInt a, VInt b => Z.compare a b
  | VFloat a, VFloat b => default Eq (SFcompare a b)
  | VBool a, VBool b => Bool.compare a b
  | VStr a, VStr b => String.compare a b
  | _, _ => Nat.compare (kind_rank v1) (kind_rank v2)
  end.

(** ** Errors and the two monads

    A Python exception ends the call.  [result] is the pure part; [M]
    threads the file store and the standard output through the calls that
    touch them. *)

Inductive exn :=
| FileNotFoundError (path : string)
| IsADirectoryError (path : string)
| FileExistsError (path : string)
| ParserError
| KeyError (labels : list string)
| IndexError
| ValueError.

Inductive result (A : Type) :=
| Ok (a : A)
| Raise (e : exn).

Arguments Ok {A} a.
Arguments Raise {A} e.

#[global] Instance result_ret : MRet result := fun _ a => Ok a.
#[global] Instance result_bind : MBind result := fun _ _ f m =>
  match m with
  | Ok a => f a
  | Raise e => Raise e
  end.

Fixpoint result_mapM {A B} (f : A -> result B) (l : list A) : result (list B) :=
  match l with
  | [] => Ok []
  | x :: l' => y ← f x; ys ← result_mapM f l'; Ok (y :: ys)
  end.

Fixpoint result_foldM {A B} (f : B -> A -> result B) (l : list A) (b : B) : result B :=
  match l with
  | [] => Ok b
  | x :: l' => b' ← f b x; result_foldM f l' b'
  end.

(** ** Series

    One column of a frame.  The constructors are the outcomes of the CSV
    reader's type inference: whole numbers, floats (a column with a missing
    cell among numbers, or with no value at all, is float64), booleans,
    and the object columns, with [None] for a missing cell: strings,
    booleans next to a missing cell, and Python integers (a column of
    whole numbers one of which does not fit 64 bits is kept as objects,
    every cell a Python [int]). *)

Inductive dtype := int64 | float64 | bool_ | object_.

Inductive Series :=
| Int64 (data : list Z)
| Float64 (data : list spec_float)
| Bool (data : list bool)
| ObjectStr (data : list (option string))
| ObjectBool (data : list (option bool))
| ObjectInt (data : list (option Z)).

Definition dtype_of (s : Series) : dtype :=
  match s with
  | Int64 _ => int64
  | Float64 _ => float64
  | Bool _ => bool_
  | ObjectStr _ | ObjectBool _ | ObjectInt _ => object_
  end.

(** [pd.api.types.is_numeric_dtype(values)]: true for the integer, float
    and bool dtypes, false for object. *)
Definition is_numeric_dtype (s : Series) : bool :=
  match dtype_of s with
  | object_ => false
  | _ => true
  end.

(** The cells of a series, in row order. *)
Definition cells (s : Series) : list value :=
  match s with
  | Int64 d => VInt <$> d
  | Float64 d => VFloat <$> d
  | Bool d => VBool <$> d
  | ObjectStr d => from_option VStr NaN <$> d
  | ObjectBool d => from_option VBool NaN <$> d
  | ObjectInt d => from_option VInt NaN <$> d
  end.

(** [s.empty] *)
Definition Series_empty (s : Series) : bool :=
  match cells s with
  | [] => true
  | _ :: _ => false
  end.

(** [s.iloc[0]] *)
Definition iloc0 (s : Series) : result value :=
  match cells s with
  | v :: _ => Ok v
  | [] => Raise IndexError
  end.

(** Rows picked by a boolean mask, in row order. *)
Fixpoint take_mask {A} (mask : list bool) (l : list A) : list A :=
  match mask, l with
  | true :: m, x :: l' => x :: take_mask m l'
  | false :: m, _ :: l' => take_mask m l'
  | _, _ => []
  end.

Definition Series_take (mask : list bool) (s : Series) : Series :=
  match s with
  | Int64 d => Int64 (take_mask mask d)
  | Float64 d => Float64 (take_mask mask d)
  | Bool d => Bool (take_mask mask d)
  | ObjectStr d => ObjectStr (take_mask mask d)
  | ObjectBool d => ObjectBool (take_mask mask d)
  | ObjectInt d => ObjectInt (take_mask mask d)
  end.

(** *** [Series.mode()]

    pandas counts the non-missing values in a hash table, keeps the values
    whose count is the largest, and returns them sorted ascending. *)

Section Mode.
Context {A : Type} (eqb : A -> A -> bool) (le : A -> A -> Prop) `{!RelDecision le}.

(** One more occurrence of [x]: its count goes up, or it enters last. *)
Fixpoint bump (x : A) (counts : list (A * nat)) : list (A * nat) :=
  match counts with
  | [] => [(x, 1)]
  | (y, n) :: rest => if eqb y x then (y, S n) :: rest else (y, n) :: bump x rest
  end.

(** Values with their number of occurrences, in first-seen order. *)
Definition value_counts (l : list A) : list (A * nat) :=
  fold_left (fun counts x => bump x counts) l [].

Definition max_count (counts : list (A * nat)) : nat :=
  foldr (fun p m => Nat.max (snd p) m) 0 counts.

Definition modes (l : list A) : list A :=
  let counts := value_counts l in
  let top := max_count counts in
  merge_sort le (fst <$> filter (fun p => snd p = top) counts).

(** Occurrences of [x] in [l]. *)
Definition cnt (x : A) (l : list A) : nat := length (List.filter (eqb x) l).

(** The count a table of counts holds for [x]. *)
Fixpoint count_of (x : A) (counts : list (A * nat)) : nat :=
  match counts with
  | [] => 0
  | (y, n) :: rest => if eqb y x then n else count_of x rest
  end.

End Mode.

Definition float_le (f1 f2 : spec_float) : Prop := SFleb f1 f2 = true.
Definition bool_le (b1 b2 : bool) : Prop := Bool.le b1 b2.

#[global] Instance float_le_dec : RelDecision float_le.
Proof. intros f1 f2; unfold float_le; apply _. Defined.

#[global] Instance bool_le_dec : RelDecision bool_le.
Proof. intros [] []; simpl; apply _. Defined.

(** [s.mode()], with the default [dropna=True]. *)
Definition Series_mode (s : Series) : Series :=
  match s with
  | Int64 d => Int64 (modes Z.eqb Z.le d)
  | Float64 d => Float64 (modes SFeqb float_le (filter (fun f => float_isnan f = false) d))
  | Bool d => Bool (modes Bool.eqb bool_le d)
  | ObjectStr d => ObjectStr (Some <$> modes String.eqb Str.le (omap id d))
  | ObjectBool d => ObjectBool (Some <$> modes Bool.eqb bool_le (omap id d))
  | ObjectInt d => ObjectInt (Some <$> modes Z.eqb Z.le (omap id d))
  end.

(** ** DataFrame

    The frame [pd.read_csv] returns: [nrows] rows under a default integer
    index, and the named columns in header order.  The reader makes the
    labels distinct (a repeated header [x] becomes [x.1]); a label is
    looked up at its first column. *)

Record DataFrame := {
  nrows : nat;
  series : list (string * Series)
}.

(** [df.columns] *)
Definition columns (df : DataFrame) : list string := fst <$> series df.

(** The entry of the first pair labelled [c]. *)
Fixpoint assoc {A} (c : string) (l : list (string * A)) : option A :=
  match l with
  | [] => None
  | (c', x) :: l' => if String.eqb c' c then Some x else assoc c l'
  end.

(** [df[c]] for one label. *)
Definition getitem (df : DataFrame) (c : string) : result Series :=
  match assoc c (series df) with
  | Some s => Ok s
  | None => Raise (KeyError [c])
  end.

(** [df[mask]]: the rows where the mask is true, all columns. *)
Definition DataFrame_take (mask : list bool) (df : DataFrame) : DataFrame :=
  {| nrows := length (List.filter id (take (nrows df) mask));
     series := prod_map id (Series_take mask) <$> series df |}.

(** *** [df.groupby(by)]

    With the defaults [sort=True] and [dropna=True]: a [KeyError] for the
    first label of [by] that is not a column; rows with a missing key cell
    belong to no group; one group per distinct key, the keys in ascending
    order, the rows of a group in frame order. *)

(** The first [n] rows across some columns of cells. *)
Definition cell_rows (n : nat) (css : list (list value)) : list (list value) :=
  (fun r => (fun c => nth r c NaN) <$> css) <$> seq 0 n.

(** The key of every row: its cells in the grouping columns. *)
Definition row_keys (n : nat) (by_series : list Series) : list (list value) :=
  cell_rows n (cells <$> by_series).

(** A key without missing cell. *)
Definition complete (k : list value) : bool := forallb notna k.

(** Two keys are the same group: equal cell by cell. *)
Fixpoint key_eqb (k1 k2 : list value) : bool :=
  match k1, k2 with
  | [], [] => true
  | v1 :: k1', v2 :: k2' => value_eqb v1 v2 && key_eqb k1' k2'
  | _, _ => false
  end.

(** Keys are ordered as tuples, by the first cell that differs. *)
Fixpoint key_compare (k1 k2 : list value) : comparison :=
  match k1, k2 with
  | [], [] => Eq
  | [], _ :: _ => Lt
  | _ :: _, [] => Gt
  | v1 :: k1', v2 :: k2' =>
      match value_compare v1 v2 with
      | Eq => key_compare k1' k2'
      | c => c
      end
  end.

Definition key_le (k1 k2 : list value) : Prop := key_compare k1 k2 <> Gt.

#[global] Instance key_le_dec : RelDecision key_le.
Proof. intros k1 k2; unfold key_le; apply _. Defined.

(** The distinct keys in first-seen order, as the hash table of
    [factorize] collects them; [seen] are the keys met so far. *)
Fixpoint uniques (seen l : list (list value)) : list (list value) :=
  match l with
  | [] => []
  | k :: l' =>
      if existsb (key_eqb k) seen then uniques seen l'
      else k :: uniques (k :: seen) l'
  end.

(** The keys of the groups: the distinct complete keys, sorted. *)
Definition group_keys (keys : list (list value)) : list (list value) :=
  merge_sort key_le (uniques [] (List.filter complete keys)).

(** The rows of the group of [u]. *)
Definition group_mask (keys : list (list value)) (u : list value) : list bool :=
  (fun k => complete k && key_eqb k u) <$> keys.

(** The keys of the rows of [df], or the [KeyError] of the first label
    that is not a column. *)
Definition key_rows (df : DataFrame) (by_ : list string) : result (list (list value)) :=
  by_series ← result_mapM (getitem df) by_;
  Ok (row_keys (nrows df) by_series).

(** What iterating over [df.groupby(by)] yields: each key with the frame
    of its rows. *)
Definition groupby (df : DataFrame) (by_ : list string) : result (list (list value * DataFrame)) :=
  keys ← key_rows df by_;
  Ok ((fun u => (u, DataFrame_take (group_mask keys u) df)) <$> group_keys keys).

(** ** The summary rows and the summary table *)

(** A Python [dict] with [str] keys: insertion-ordered, one entry per key. *)
Definition dict : Type := list (string * value).

(** [d[k] = v] *)
Fixpoint dict_set (k : string) (v : value) (d : dict) : dict :=
  match d with
  | [] => [(k, v)]
  | (k', v') :: d' =>
      if String.eqb k' k then (k', v) :: d' else (k', v') :: dict_set k v d'
  end.

(** [d.get(k)] *)
Definition dict_get (k : string) (d : dict) : option value := assoc k d.

(** [list(d.keys())] *)
Definition dict_keys (d : dict) : list string := fst <$> d.

(** The frame [pd.DataFrame(rows)] makes of a list of dicts, kept row by
    row: the function only selects columns of it and hands it to the
    writers. *)
Record SummaryTable := {
  tcolumns : list string;
  trows : list (list value)
}.

(** [c in l] *)
Definition mem (c : string) (l : list string) : bool := existsb (String.eqb c) l.

(** Column labels of [pd.DataFrame(rows)]: the keys of the dicts, each
    once, in the order they are first met. *)
Definition records_columns (rows : list dict) : list string :=
  fold_left (fun acc d => acc ++ List.filter (fun k => negb (mem k acc)) (dict_keys d)) rows [].

(** [pd.DataFrame(rows)]: a key a dict lacks gives a missing cell. *)
Definition DataFrame_of_records (rows : list dict) : SummaryTable :=
  let cols := records_columns rows in
  {| tcolumns := cols;
     trows := (fun d => (fun c => default NaN (dict_get c d)) <$> cols) <$> rows |}.

(** The cell of a table row under the first column labelled [c]. *)
Fixpoint row_cell (cols : list string) (row : list value) (c : string) : option value :=
  match cols, row with
  | c' :: cols', v :: row' => if String.eqb c' c then Some v else row_cell cols' row' c
  | _, _ => None
  end.

(** [df[labels]] for a list of labels: a [KeyError] naming the labels that
    are not columns, otherwise the columns in the order asked for (a label
    asked for twice comes twice). *)
Definition getitem_columns (t : SummaryTable) (labels : list string) : result SummaryTable :=
  match List.filter (fun c => negb (mem c (tcolumns t))) labels with
  | [] =>
      Ok {| tcolumns := labels;
            trows := (fun row => (fun c => default NaN (row_cell (tcolumns t) row c)) <$> labels)
                       <$> trows t |}
  | missing => Raise (KeyError missing)
  end.

(** The value kept for one parameter column of one group (lines 33-36). *)
Definition reduce_param (values : Series) : result value :=
  if is_numeric_dtype values then iloc0 values
  else if negb (Series_empty (Series_mode values)) then iloc0 (Series_mode values)
       else Ok (VStr "N/A").

(** The output name of a parameter column (line 31). *)
Definition param_name (param : string) : string := Str.replace "param_" "" param.

(** One pass of the loop over [param_columns] (lines 30-36). *)
Definition add_param (group : DataFrame) (row : dict) (param : string) : result dict :=
  values ← getitem group param;
  v ← reduce_param values;
  Ok (dict_set (param_name param) v row).

(** The dict built for one group (lines 24-37).  Unpacking a key that is
    not a triple is a [ValueError]; the keys of three grouping columns are
    triples. *)
Definition summary_row (param_columns : list string) (g : list value * DataFrame) : result dict :=
  match fst g with
  | [config; sample_size; iteration] =>
      let row := [("configuration", config); ("sample_size", sample_size);
                  ("iteration", iteration)] in
      result_foldM (add_param (snd g)) param_columns row
  | _ => Raise ValueError
  end.

(** The labels the rows are grouped by (line 24). *)
Definition key_columns : list string := ["configuration"; "sample_size"; "iteration"].

(** [param_columns] (line 20) *)
Definition param_columns_of (df : DataFrame) : list string :=
  List.filter (Str.startswith "param_") (columns df).

(** [ordered_columns] (line 43) *)
Definition ordered_columns_of (param_columns : list string) : list string :=
  key_columns ++ Str.sorted (param_name <$> param_columns).

(** Lines 19-44: from the frame read to the reordered summary frame. *)
Definition summarize (results_df : DataFrame) : result SummaryTable :=
  let param_columns := param_columns_of results_df in
  groups ← groupby results_df key_columns;
  rows ← result_mapM (summary_row param_columns) groups;
  let df_summary := DataFrame_of_records rows in
  getitem_columns df_summary (ordered_columns_of param_columns).

(** ** Files, standard output and the whole call *)

Inductive node :=
| Directory
| File (text : string).

(** The file store is keyed by whole paths, spelled as the call spells
    them; [stdout] lists what [print] wrote, oldest first.  The store does
    not relate a path to its parent directories, nor two spellings of one
    path: it records what sits at the paths the call names. *)
Record world := {
  fs : gmap string node;
  stdout : list string
}.

Record M (A : Type) := Run { run : world -> result A * world }.

Arguments Run {A} run.
Arguments run {A} m w.

#[global] Instance M_ret : MRet M := fun _ a => Run (fun w => (Ok a, w)).
#[global] Instance M_bind : MBind M := fun _ _ f m =>
  Run (fun w =>
    match run m w with
    | (Ok a, w') => run (f a) w'
    | (Raise e, w') => (Raise e, w')
    end).

(** A pure step that may raise. *)
Definition lift {A} (r : result A) : M A := Run (fun w => (r, w)).

(** What a Python function hands back to its caller. *)
#[warnings="-register-all"]
Inductive pyobject :=
| PyFrame (t : SummaryTable)
| PyStr (s : string)
| PyTuple (items : list pyobject).

(** [holds o x]: [x] is [o] itself or sits somewhere inside the tuple [o]. *)
Inductive holds : pyobject -> pyobject -> Prop :=
| holds_self o : holds o o
| holds_item items o x : In o items -> holds o x -> holds (PyTuple items) x.

(** [os.path.join(a, b)] for a relative [b]. *)
Fixpoint ends_with_slash (a : string) : bool :=
  match a with
  | EmptyString => false
  | String c EmptyString => Ascii.eqb c "/"
  | String _ a' => ends_with_slash a'
  end.

Definition path_join (a b : string) : string :=
  match a with
  | EmptyString => b
  | _ => if ends_with_slash a then a ++ b else a ++ "/" ++ b
  end.

(** [os.makedirs(path, exist_ok=True)], at the leaf: an empty path is
    refused, so is a path where a file sits, and a directory is left at
    [path].  The parent directories it makes on the way are not
    recorded. *)
Definition makedirs (path : string) : M unit :=
  Run (fun w =>
    match path with
    | EmptyString => (Raise (FileNotFoundError path), w)
    | _ =>
        match fs w !! path with
        | Some (File _) => (Raise (FileExistsError path), w)
        | _ => (Ok tt, {| fs := <[path := Directory]> (fs w); stdout := stdout w |})
        end
    end).

(** Opening [path] for writing and writing [text]. *)
Definition write_file (path text : string) : M unit :=
  Run (fun w =>
    match fs w !! path with
    | Some Directory => (Raise (IsADirectoryError path), w)
    | _ => (Ok tt, {| fs := <[path := File text]> (fs w); stdout := stdout w |})
    end).

(** [print(msg)] *)
Definition print (msg : string) : M unit :=
  Run (fun w => (Ok tt, {| fs := fs w; stdout := stdout w ++ [msg] |})).

Section Program.

(** The CSV parser of pandas, from the text of a file to the frame, and
    the two writers, from the summary frame to the text they write. *)
Variable parse_csv : string -> result DataFrame.
Variable render_csv render_html : SummaryTable -> string.

(** [pd.read_csv(path)] *)
Definition read_csv (path : string) : M DataFrame :=
  Run (fun w =>
    match fs w !! path with
    | Some (File text) => (parse_csv text, w)
    | Some Directory => (Raise (IsADirectoryError path), w)
    | None => (Raise (FileNotFoundError path), w)
    end).

(** [df.to_csv(path, index=False)] and [df.to_html(path, index=False)] *)
Definition to_csv (t : SummaryTable) (path : string) : M unit :=
  write_file path (render_csv t).

Definition to_html (t : SummaryTable) (path : string) : M unit :=
  write_file path (render_html t).

Definition csv_path_of (output_path : string) : string :=
  path_join output_path "optimal_parameters_summary_table.csv".

Definition html_path_of (output_path : string) : string :=
  path_join output_path "optimal_parameters_summary_table.html".

Definition saved_message (csv_path html_path : string) : string :=
  "Table saved to:" ++ Str.nl ++ "- " ++ csv_path ++ Str.nl ++ "- " ++ html_path.

Definition generate_optimal_parameter_table (input_path output_path : string) : M pyobject :=
  results_df ← read_csv input_path;
  df_summary ← lift (summarize results_df);
  _ ← makedirs output_path;
  let csv_path := csv_path_of output_path in
  let html_path := html_path_of output_path in
  _ ← to_csv df_summary csv_path;
  _ ← to_html df_summary html_path;
  _ ← print (saved_message csv_path html_path);
  mret (PyFrame df_summary).

End Program.

(** * Worked inputs *)

Definition f64 (neg : bool) (m : positive) (e : Z) : spec_float := S754_finite neg m e.

(** The table of the round-trip scenario: columns configuration,
    sample_size, iteration, param_lr, param_opt and the rows
    (cfgA,100,1,0.01,adam), (cfgA,100,1,0.01,sgd), (cfgB,200,1,0.02,adam). *)
Definition lr_001 : spec_float := f64 false 5764607523034235 (-59).
Definition lr_002 : spec_float := f64 false 5764607523034235 (-58).

Definition scenario : DataFrame :=
  {| nrows := 3;
     series :=
       [("configuration", ObjectStr [Some "cfgA"; Some "cfgA"; Some "cfgB"]);
        ("sample_size", Int64 [100; 100; 200]%Z);
        ("iteration", Int64 [1; 1; 1]%Z);
        ("param_lr", Float64 [lr_001; lr_001; lr_002]);
        ("param_opt", ObjectStr [Some "adam"; Some "sgd"; Some "adam"])] |}.

(** One group of three rows whose parameter column holds 3, 3, 7. *)
Definition three_seven : DataFrame :=
  {| nrows := 3;
     series :=
       [("configuration", ObjectStr [Some "cfgA"; Some "cfgA"; Some "cfgA"]);
        ("sample_size", Int64 [100; 100; 100]%Z);
        ("iteration", Int64 [1; 1; 1]%Z);
        ("param_depth", Int64 [3; 3; 7]%Z)] |}.

(** One group of three rows whose parameter column holds a, b, a. *)
Definition a_b_a : DataFrame :=
  {| nrows := 3;
     series :=
       [("configuration", ObjectStr [Some "cfgA"; Some "cfgA"; Some "cfgA"]);
        ("sample_size", Int64 [100; 100; 100]%Z);
        ("iteration", Int64 [1; 1; 1]%Z);
        ("param_kernel", ObjectStr [Some "a"; Some "b"; Some "a"])] |}.


(** Two groups; the first has no value in either parameter column.  The
    other group holds a number in [param_lr], so that column is float64,
    and a string in [param_opt], so that column is object. *)
Definition missing_in_group : DataFrame :=
  {| nrows := 3;
     series :=
       [("configuration", ObjectStr [Some "cfgA"; Some "cfgA"; Some "cfgB"]);
        ("sample_size", Int64 [100; 100; 200]%Z);
        ("iteration", Int64 [1; 1; 1]%Z);
        ("param_lr", Float64 [S754_nan; S754_nan; lr_002]);
        ("param_opt", ObjectStr [None; None; Some "adam"])] |}.


(** Two groups whose rows alternate; the parameter column holds linear,
    rbf, linear. *)
Definition two_kernels : DataFrame :=
  {| nrows := 3;
     series :=
       [("configuration", ObjectStr [Some "cfgB"; Some "cfgA"; Some "cfgB"]);
        ("sample_size", Int64 [200; 100; 200]%Z);
        ("iteration", Int64 [1; 1; 1]%Z);
        ("param_kernel", ObjectStr [Some "linear"; Some "rbf"; Some "linear"])] |}.

(** Two rows, the first without a configuration. *)
Definition missing_key : DataFrame :=
  {| nrows := 2;
     series :=
       [("configuration", ObjectStr [None; Some "cfgA"]);
        ("sample_size", Int64 [100; 100]%Z);
        ("iteration", Int64 [1; 1]%Z);
        ("param_depth", Int64 [3; 7]%Z)] |}.

(** A parameter column whose output name is the name of a key column. *)
Definition shadowed_key : DataFrame :=
  {| nrows := 1;
     series :=
       [("configuration", ObjectStr [Some "cfgA"]);
        ("sample_size", Int64 [100]%Z);
        ("iteration", Int64 [1]%Z);
        ("param_iteration", Int64 [50]%Z)] |}.

(** A header with the three key columns and one parameter column, no row. *)
Definition header_only : DataFrame :=
  {| nrows := 0;
     series :=
       [("configuration", ObjectStr []);
        ("sample_size", ObjectStr []);
        ("iteration", ObjectStr []);
        ("param_lr", ObjectStr [])] |}.

(** A header without the column [iteration]. *)
Definition no_iteration : DataFrame :=
  {| nrows := 1;
     series :=
       [("configuration", ObjectStr [Some "cfgA"]);
        ("sample_size", Int64 [100]%Z);
        ("param_lr", Float64 [lr_001])] |}.

(** Texts of three input files, and a reader that knows these three:
    it gives the frame pandas parses from each of them. *)
Definition scenario_text : string :=
  "configuration,sample_size,iteration,param_lr,param_opt" ++ Str.nl ++
  "cfgA,100,1,0.01,adam" ++ Str.nl ++
  "cfgA,100,1,0.01,sgd" ++ Str.nl ++
  "cfgB,200,1,0.02,adam" ++ Str.nl.

Definition header_only_text : string :=
  "configuration,sample_size,iteration,param_lr" ++ Str.nl.

Definition no_iteration_text : string :=
  "configuration,sample_size,param_lr" ++ Str.nl ++
  "cfgA,100,0.01" ++ Str.nl.

Definition example_parse (text : string) : result DataFrame :=
  if String.eqb text scenario_text then Ok scenario
  else if String.eqb text header_only_text then Ok header_only
  else if String.eqb text no_iteration_text then Ok no_iteration
  else Raise ParserError.

(** Stand-ins for the two writers: the header line, bare or in a table. *)
Definition example_csv (t : SummaryTable) : string := String.concat "," (tcolumns t).

Definition example_html (t : SummaryTable) : string :=
  "<table><tr><th>" ++ String.concat "</th><th>" (tcolumns t) ++ "</th></tr></table>".

Definition world_of (path text : string) : world :=
  {| fs := {[ path := File text ]}; stdout := [] |}.

(** The summary table expected for [scenario]. *)
Definition scenario_summary : SummaryTable :=
  {| tcolumns := ["configuration"; "sample_size"; "iteration"; "lr"; "opt"];
     trows := [[VStr "cfgA"; VInt 100; VInt 1; VFloat lr_001; VStr "adam"];
               [VStr "cfgB"; VInt 200; VInt 1; VFloat lr_002; VStr "adam"]] |}.

(** * Notions used to state the properties *)

(** The notions of this part are written from the wording of the
    properties, on the rows of the input and their keys; none of them goes
    through the masks and the frames [groupby] builds. *)

(** A key with a missing cell, and a key all of whose cells are given. *)
Definition has_missing (k : list value) : bool := existsb isna k.

Definition full_key (k : list value) : bool := negb (has_missing k).

(** A row whose key is [k] is a row of the group of [u]: no cell of [k] is
    missing and [k] is [u], cell by cell. *)
Definition same_group (u k : list value) : bool := full_key k && key_eqb k u.

(** Row [r] of the input belongs to the group of key [u]. *)
Definition in_group (keys : list (list value)) (u : list value) (r : nat) : Prop :=
  exists k, keys !! r = Some k /\ same_group u k = true.

(** The entries of a column in the rows whose key satisfies [P], in input
    order: every entry is read next to the key of its row. *)
Definition rows_where {A} (P : list value -> bool) (keys : list (list value))
    (l : list A) : list A :=
  snd <$> List.filter (fun kx => P (fst kx)) (zip keys l).

(** Row [r] is the first row of the group of [u], in input order. *)
Definition first_row (keys : list (list value)) (u : list value) (r : nat) : Prop :=
  in_group keys u r /\ forall r', r' < r -> ~ in_group keys u r'.

(** The cell of the summary table in row [i] under the column labelled [c]. *)
Definition table_cell (t : SummaryTable) (i : nat) (c : string) : option value :=
  match trows t !! i with
  | Some row => row_cell (tcolumns t) row c
  | None => None
  end.

(** No other parameter column of [df] has the output name of [p]. *)
Definition own_output_name (df : DataFrame) (p : string) : Prop :=
  forall q, q ∈ param_columns_of df -> param_name q = param_name p -> q = p.

(** [p] is the last parameter column of [df], in header order, with its
    output name. *)
Definition last_with_output_name (df : DataFrame) (p : string) : Prop :=
  exists before after,
    param_columns_of df = before ++ p :: after /\
    forall q, q ∈ after -> param_name q <> param_name p.






(** Number of distinct keys of a list, counted at the last occurrence. *)
Fixpoint distinct_count (l : list (list value)) : nat :=
  match l with
  | [] => 0
  | k :: l' => if existsb (key_eqb k) l' then distinct_count l' else S (distinct_count l')
  end.

(** A column name with the prefix [param_] stripped, as the specification
    words the output name. *)
Definition strip_prefix (p : string) : string := Str.removeprefix "param_" p.

(** A series restricted to the rows whose key satisfies [P]. *)
Definition Series_where (P : list value -> bool) (keys : list (list value))
    (s : Series) : Series :=
  match s with
  | Int64 d => Int64 (rows_where P keys d)
  | Float64 d => Float64 (rows_where P keys d)
  | Bool d => Bool (rows_where P keys d)
  | ObjectStr d => ObjectStr (rows_where P keys d)
  | ObjectBool d => ObjectBool (rows_where P keys d)
  | ObjectInt d => ObjectInt (rows_where P keys d)
  end.

(** The frame without the rows that have a missing key cell: as many rows
    as there are keys whose cells are all given, and of every column the
    entries of those rows. *)
Definition without_incomplete_rows (df : DataFrame) : DataFrame :=
  match key_rows df key_columns with
  | Ok keys =>
      {| nrows := length (List.filter full_key keys);
         series := prod_map id (Series_where full_key keys) <$> series df |}
  | Raise _ => df
  end.


(** A label the function looks at: a key label or a [param_] label. *)
Definition used_label (c : string) : bool :=
  mem c key_columns || Str.startswith "param_" c.

(** The frame with the columns the function looks at, and no other. *)
Definition used_columns (df : DataFrame) : DataFrame :=
  {| nrows := nrows df;
     series := List.filter (fun cs => used_label (fst cs)) (series df) |}.

(** What sits at a path of the file store. *)
Definition is_file (o : option node) : bool :=
  match o with
  | Some (File _) => true
  | _ => false
  end.

Definition is_directory (o : option node) : bool :=
  match o with
  | Some Directory => true
  | _ => false
  end.

(** One group of three rows with a boolean parameter, true once and false
    twice. *)
Definition bool_param : DataFrame :=
  {| nrows := 3;
     series :=
       [("configuration", ObjectStr [Some "cfgA"; Some "cfgA"; Some "cfgA"]);
        ("sample_size", Int64 [100; 100; 100]%Z);
        ("iteration", Int64 [1; 1; 1]%Z);
        ("param_bootstrap", Bool [true; false; false])] |}.

(** Two groups; the boolean parameter has no value in the second one, so
    its column is of object dtype.  In the first group true and false come
    once each. *)
Definition bool_object_param : DataFrame :=
  {| nrows := 3;
     series :=
       [("configuration", ObjectStr [Some "cfgA"; Some "cfgA"; Some "cfgB"]);
        ("sample_size", Int64 [100; 100; 200]%Z);
        ("iteration", Int64 [1; 1; 1]%Z);
        ("param_bootstrap", ObjectBool [Some true; Some false; None])] |}.

(** Two parameter columns with the output name x: [str.replace] removes
    both occurrences of [param_] from the second name. *)
Definition two_named_x : DataFrame :=
  {| nrows := 2;
     series :=
       [("configuration", ObjectStr [Some "cfgA"; Some "cfgA"]);
        ("sample_size", Int64 [100; 100]%Z);
        ("iteration", Int64 [1; 1]%Z);
        ("param_x", Int64 [1; 1]%Z);
        ("param_param_x", Int64 [2; 2]%Z)] |}.


(** The round-trip scenario with a score column, and with its rows in
    another order. *)
Definition scenario_scored : DataFrame :=
  {| nrows := 3;
     series :=
       [("configuration", ObjectStr [Some "cfgB"; Some "cfgA"; Some "cfgA"]);
        ("mean_test_score", Float64 [lr_001; lr_002; lr_001]);
        ("sample_size", Int64 [200; 100; 100]%Z);
        ("iteration", Int64 [1; 1; 1]%Z);
        ("param_lr", Float64 [lr_002; lr_001; lr_001]);
        ("param_opt", ObjectStr [Some "adam"; Some "adam"; Some "sgd"])] |}.

(** Key columns alone. *)
Definition keys_only : DataFrame :=
  {| nrows := 3;
     series :=
       [("configuration", ObjectStr [Some "cfgB"; Some "cfgA"; Some "cfgB"]);
        ("sample_size", Int64 [200; 100; 200]%Z);
        ("iteration", Int64 [1; 1; 1]%Z)] |}.

(** A file store where a directory sits at the path of the HTML file. *)
Definition world_html_blocked : world :=
  {| fs := {[ "results.csv" := File scenario_text;
              "out/optimal_parameters_summary_table.html" := Directory ]};
     stdout := [] |}.

(** * Properties *)

(** ** Masks *)

Lemma take_mask_nil {A} (mask : list bool) : take_mask mask (@nil A) = [].
Proof. destruct mask as [|[] m]; reflexivity. Qed.

Lemma take_mask_fmap {A B} (f : A -> B) mask (l : list A) :
  take_mask mask (f <$> l) = f <$> take_mask mask l.
Proof.
  revert l; induction mask as [|b m IH]; intros [|x l]; simpl; try reflexivity.
  - destruct b; reflexivity.
  - destruct b; simpl; rewrite IH; reflexivity.
Qed.

Lemma cells_take mask s : cells (Series_take mask s) = take_mask mask (cells s).
Proof. destruct s; simpl; rewrite take_mask_fmap; reflexivity. Qed.


Lemma take_mask_head {A} (mask : list bool) (l : list A) r :
  mask !! r = Some true ->
  (forall r', r' < r -> mask !! r' <> Some true) ->
  head (take_mask mask l) = l !! r.
Proof.
  revert mask l; induction r as [|r IH]; intros [|b m] l Hr Hfirst;
    simpl in Hr; try discriminate.
  - injection Hr as ->. destruct l; reflexivity.
  - destruct b.
    + exfalso. apply (Hfirst 0); [lia | reflexivity].
    + destruct l as [|y l]; [reflexivity|]. simpl. apply IH; [exact Hr|].
      intros r' Hlt. apply (Hfirst (S r')). lia.
Qed.

Lemma elem_of_take_mask {A} (mask : list bool) (l : list A) x :
  x ∈ take_mask mask l <-> exists r, mask !! r = Some true /\ l !! r = Some x.
Proof.
  revert l; induction mask as [|b m IH]; intros [|y l]; simpl.
  - split; [intros H; inversion H | intros (r & H & _); destruct r; discriminate].
  - split; [intros H; inversion H | intros (r & H & _); destruct r; discriminate].
  - destruct b; (split; [intros H; inversion H | intros (r & _ & H); destruct r; discriminate]).
  - destruct b.
    + rewrite elem_of_cons, IH. split.
      * intros [-> | (r & H1 & H2)]; [exists 0; auto | exists (S r); auto].
      * intros ([|r] & H1 & H2); simpl in *; [left; congruence | right; eauto].
    + rewrite IH. split.
      * intros (r & H1 & H2); exists (S r); auto.
      * intros ([|r] & H1 & H2); simpl in *; [discriminate | eauto].
Qed.

Lemma take_mask_take_mask {A} (P Q : list value -> bool) keys (l : list A) :
  take_mask (Q <$> List.filter P keys) (take_mask (P <$> keys) l)
  = take_mask ((fun k => P k && Q k) <$> keys) l.
Proof.
  revert l; induction keys as [|k keys IH]; intros l; simpl.
  - destruct l; reflexivity.
  - destruct l as [|x l].
    + destruct (P k); simpl; rewrite ?take_mask_nil; [destruct (Q k)|]; reflexivity.
    + destruct (P k) eqn:HP; simpl; [destruct (Q k)|]; simpl; rewrite IH; reflexivity.
Qed.

(** ** Dicts, association lists and the two traversals *)

Lemma assoc_fmap {A B} (f : A -> B) c (l : list (string * A)) :
  assoc c (prod_map id f <$> l) = f <$> assoc c l.
Proof.
  induction l as [|[c' x] l IH]; simpl; [reflexivity|].
  destruct (String.eqb c' c); [reflexivity | exact IH].
Qed.

Lemma assoc_Some_elem {A} c (l : list (string * A)) x :
  assoc c l = Some x -> c ∈ (fst <$> l).
Proof.
  induction l as [|[c' y] l IH]; simpl; [discriminate|].
  destruct (String.eqb c' c) eqn:E.
  - apply String.eqb_eq in E as ->. intros _. apply elem_of_cons; auto.
  - intros H. apply elem_of_cons; auto.
Qed.

Lemma assoc_elem_Some {A} c (l : list (string * A)) :
  c ∈ (fst <$> l) -> exists x, assoc c l = Some x.
Proof.
  induction l as [|[c' y] l IH]; simpl; intros H.
  - inversion H.
  - destruct (String.eqb c' c) eqn:E; [eauto|].
    apply elem_of_cons in H as [->|H]; [|auto].
    rewrite String.eqb_refl in E. discriminate.
Qed.

Lemma dict_get_set_eq k v d : dict_get k (dict_set k v d) = Some v.
Proof.
  unfold dict_get. induction d as [|[k' v'] d IH]; simpl.
  - rewrite String.eqb_refl. reflexivity.
  - destruct (String.eqb k' k) eqn:E; simpl; rewrite E; [reflexivity | exact IH].
Qed.

Lemma dict_get_set_ne k k' v d : k <> k' -> dict_get k' (dict_set k v d) = dict_get k' d.
Proof.
  intros Hne. unfold dict_get. induction d as [|[k0 v0] d IH]; simpl.
  - destruct (String.eqb k k') eqn:E; [|reflexivity].
    apply String.eqb_eq in E. contradiction.
  - destruct (String.eqb k0 k) eqn:E; simpl.
    + apply String.eqb_eq in E as ->.
      destruct (String.eqb k k') eqn:E'; [|reflexivity].
      apply String.eqb_eq in E'. contradiction.
    + destruct (String.eqb k0 k'); [reflexivity | exact IH].
Qed.

Lemma mem_true c l : mem c l = true <-> c ∈ l.
Proof.
  unfold mem. rewrite existsb_exists. split.
  - intros (x & Hin & E). apply String.eqb_eq in E as ->. apply list_elem_of_In, Hin.
  - intros H. exists c. split; [apply list_elem_of_In, H | apply String.eqb_refl].
Qed.

Lemma result_mapM_lookup {A B} (f : A -> result B) l ys i x :
  result_mapM f l = Ok ys -> l !! i = Some x ->
  exists y, ys !! i = Some y /\ f x = Ok y.
Proof.
  revert ys i; induction l as [|a l IH]; intros ys i; simpl; [intros _ H; destruct i; discriminate|].
  destruct (f a) as [b|e] eqn:Ea; simpl; [|discriminate].
  destruct (result_mapM f l) as [bs|e] eqn:El; simpl; [|discriminate].
  intros [= <-] Hi. destruct i as [|i]; simpl in *.
  - injection Hi as <-. eauto.
  - eapply IH; eauto.
Qed.

Lemma result_mapM_length {A B} (f : A -> result B) l ys :
  result_mapM f l = Ok ys -> length ys = length l.
Proof.
  revert ys; induction l as [|a l IH]; intros ys; simpl; [intros [= <-]; reflexivity|].
  destruct (f a) as [b|e]; simpl; [|discriminate].
  destruct (result_mapM f l) as [bs|e]; simpl; [|discriminate].
  intros [= <-]. simpl. f_equal. apply IH. reflexivity.
Qed.

Lemma result_bind_Ok {A B} (m : result A) (f : A -> result B) b :
  m ≫= f = Ok b -> exists a, m = Ok a /\ f a = Ok b.
Proof. destruct m as [a|e]; simpl; [eauto | discriminate]. Qed.

Lemma add_param_Ok g row q d :
  add_param g row q = Ok d ->
  exists values v,
    getitem g q = Ok values /\ reduce_param values = Ok v /\
    d = dict_set (param_name q) v row.
Proof.
  unfold add_param. intros H.
  apply result_bind_Ok in H as (values & Hg & H).
  apply result_bind_Ok in H as (v & Hr & H).
  injection H as <-. eauto.
Qed.

Lemma foldM_add_param_other g pcs row d n :
  result_foldM (add_param g) pcs row = Ok d ->
  n ∉ (param_name <$> pcs) ->
  dict_get n d = dict_get n row.
Proof.
  revert row; induction pcs as [|q pcs IH]; intros row; cbn [result_foldM fmap list_fmap].
  - intros [= <-] _. reflexivity.
  - intros Hfold Hn.
    apply result_bind_Ok in Hfold as (row' & Hadd & Hfold).
    apply add_param_Ok in Hadd as (values & v & _ & _ & ->).
    rewrite (IH _ Hfold).
    + apply dict_get_set_ne. intros <-. apply Hn, elem_of_cons. auto.
    + intros Hin. apply Hn, elem_of_cons. auto.
Qed.

Lemma foldM_add_param g pcs row d p :
  result_foldM (add_param g) pcs row = Ok d ->
  (forall q, q ∈ pcs -> param_name q = param_name p -> q = p) ->
  p ∈ pcs ->
  exists values v,
    getitem g p = Ok values /\ reduce_param values = Ok v /\
    dict_get (param_name p) d = Some v.
Proof.
  revert row; induction pcs as [|q pcs IH]; intros row; cbn [result_foldM].
  - intros _ _ H. inversion H.
  - intros Hfold Hown Hp.
    apply result_bind_Ok in Hfold as (row' & Hadd & Hfold).
    apply add_param_Ok in Hadd as (values & v & Hg & Hr & ->).
    destruct (decide (p ∈ pcs)) as [Hlater|Hlast].
    + apply (IH _ Hfold); [|exact Hlater].
      intros q' Hq'. apply Hown, elem_of_cons. auto.
    + apply elem_of_cons in Hp as [->|Hp]; [|contradiction].
      exists values, v. repeat split; auto.
      rewrite (foldM_add_param_other _ _ _ _ (param_name q) Hfold).
      * apply dict_get_set_eq.
      * intros Hin. apply list_elem_of_fmap in Hin as (q' & Heq & Hq').
        apply Hlast. rewrite <- (Hown q'); [exact Hq' | apply elem_of_cons; auto | auto].
Qed.

(** ** The shape of a successful run of [summarize] *)

Lemma row_cell_fmap (f : string -> value) cols c :
  c ∈ cols -> row_cell cols (f <$> cols) c = Some (f c).
Proof.
  induction cols as [|c' cols IH]; simpl; intros H; [inversion H|].
  destruct (String.eqb c' c) eqn:E.
  - apply String.eqb_eq in E as ->. reflexivity.
  - apply elem_of_cons in H as [->|H]; [|auto].
    rewrite String.eqb_refl in E. discriminate.
Qed.

Lemma filter_nil_forall {A} (P : A -> bool) l :
  List.filter P l = [] -> forall x, x ∈ l -> P x = false.
Proof.
  induction l as [|a l IH]; simpl; intros H x Hx; [inversion Hx|].
  destruct (P a) eqn:E; [discriminate|].
  apply elem_of_cons in Hx as [->|Hx]; auto.
Qed.

Lemma getitem_columns_Ok t0 labels t :
  getitem_columns t0 labels = Ok t ->
  (forall c, c ∈ labels -> c ∈ tcolumns t0) /\
  tcolumns t = labels /\
  trows t = (fun row => (fun c => default NaN (row_cell (tcolumns t0) row c)) <$> labels)
              <$> trows t0.
Proof.
  unfold getitem_columns.
  destruct (List.filter _ labels) as [|m ms] eqn:E; [|discriminate].
  intros [= <-]. split; [|split; reflexivity].
  intros c Hc. apply mem_true.
  apply (filter_nil_forall _ _ E) in Hc. destruct (mem c (tcolumns t0)); [reflexivity | discriminate].
Qed.

Lemma summarize_Ok df t :
  summarize df = Ok t ->
  exists keys rows,
    key_rows df key_columns = Ok keys /\
    result_mapM (summary_row (param_columns_of df))
      ((fun u => (u, DataFrame_take (group_mask keys u) df)) <$> group_keys keys) = Ok rows /\
    getitem_columns (DataFrame_of_records rows)
      (ordered_columns_of (param_columns_of df)) = Ok t.
Proof.
  unfold summarize, groupby. intros H.
  apply result_bind_Ok in H as (groups & Hg & H).
  apply result_bind_Ok in Hg as (keys & Hk & Hg). injection Hg as <-.
  apply result_bind_Ok in H as (rows & Hr & H).
  exists keys, rows. auto.
Qed.

(** The cell of the summary table is the entry of the dict of its row. *)
Lemma table_cell_dict rows labels t i d c :
  getitem_columns (DataFrame_of_records rows) labels = Ok t ->
  rows !! i = Some d ->
  c ∈ labels ->
  table_cell t i c = Some (default NaN (dict_get c d)).
Proof.
  intros Hsel Hd Hc.
  apply getitem_columns_Ok in Hsel as (Hin & Hcols & Hrows).
  unfold table_cell. rewrite Hrows, Hcols. simpl.
  rewrite !list_lookup_fmap, Hd. simpl.
  rewrite (row_cell_fmap _ _ _ Hc). f_equal.
  rewrite (row_cell_fmap _ _ _ (Hin _ Hc)). reflexivity.
Qed.

Lemma elem_of_param_columns df p :
  p ∈ param_columns_of df <-> p ∈ columns df /\ Str.startswith "param_" p = true.
Proof.
  unfold param_columns_of. rewrite !list_elem_of_In, filter_In. reflexivity.
Qed.

Lemma elem_of_ordered_param pcs p : p ∈ pcs -> param_name p ∈ ordered_columns_of pcs.
Proof.
  intros H. unfold ordered_columns_of, Str.sorted.
  apply elem_of_app. right.
  rewrite merge_sort_Permutation. apply list_elem_of_fmap. eauto.
Qed.

Lemma getitem_take mask df p s :
  assoc p (series df) = Some s ->
  getitem (DataFrame_take mask df) p = Ok (Series_take mask s).
Proof.
  intros H. unfold getitem, DataFrame_take. simpl. rewrite assoc_fmap, H. reflexivity.
Qed.

(** The value a successful run leaves in the summary table for the group
    of [u] and the parameter column [p]: what [reduce_param] makes of the
    cells of [p] in the rows of the group. *)
Lemma summary_cell df t keys i u p s :
  summarize df = Ok t ->
  key_rows df key_columns = Ok keys ->
  group_keys keys !! i = Some u ->
  own_output_name df p ->
  Str.startswith "param_" p = true ->
  assoc p (series df) = Some s ->
  exists v,
    reduce_param (Series_take (group_mask keys u) s) = Ok v /\
    table_cell t i (param_name p) = Some v.
Proof.
  intros Hsum Hkeys Hu Hnd Hpre Hs.
  apply summarize_Ok in Hsum as (keys' & rows & Hkeys' & Hrows & Hsel).
  rewrite Hkeys in Hkeys'. injection Hkeys' as <-.
  assert (Hp : p ∈ param_columns_of df).
  { apply elem_of_param_columns. split; [|exact Hpre].
    apply (assoc_Some_elem _ _ _ Hs). }
  destruct (result_mapM_lookup _ _ _ i (u, DataFrame_take (group_mask keys u) df) Hrows)
    as (d & Hd & Hrow).
  { rewrite list_lookup_fmap, Hu. reflexivity. }
  unfold summary_row in Hrow. simpl in Hrow.
  destruct u as [|c1 [|c2 [|c3 [|]]]]; try discriminate.
  destruct (foldM_add_param _ _ _ _ p Hrow Hnd Hp) as (values & v & Hg & Hv & Hget).
  rewrite (getitem_take _ _ _ _ Hs) in Hg. injection Hg as <-.
  exists v. split; [exact Hv|].
  rewrite (table_cell_dict _ _ _ _ _ _ Hsel Hd (elem_of_ordered_param _ _ Hp)).
  rewrite Hget. reflexivity.
Qed.

(** ** Keys and groups *)

Lemma SFeqb_refl f : float_isnan f = false -> SFeqb f f = true.
Proof.
  unfold SFeqb, SFcompare. destruct f as [s|s| |s m e]; simpl; try discriminate; intros _.
  - reflexivity.
  - destruct s; reflexivity.
  - destruct s; rewrite Z.compare_refl, Pos.compare_cont_refl; reflexivity.
Qed.

Lemma value_eqb_refl v : notna v = true -> value_eqb v v = true.
Proof.
  destruct v as [z|f|b|s]; simpl; intros H.
  - apply Z.eqb_refl.
  - apply SFeqb_refl. destruct f; try reflexivity. discriminate.
  - destruct b; reflexivity.
  - apply String.eqb_refl.
Qed.

Lemma key_eqb_refl k : complete k = true -> key_eqb k k = true.
Proof.
  unfold complete. induction k as [|v k IH]; simpl; [reflexivity|].
  intros H. apply andb_true_iff in H as [Hv Hk].
  rewrite (value_eqb_refl _ Hv), (IH Hk). reflexivity.
Qed.

Lemma uniques_subset seen l k : k ∈ uniques seen l -> k ∈ l.
Proof.
  revert seen; induction l as [|a l IH]; intros seen; simpl; [auto|].
  destruct (existsb (key_eqb a) seen).
  - intros H. apply elem_of_cons. right. eapply IH, H.
  - intros H. apply elem_of_cons in H as [->|H]; apply elem_of_cons; [auto|].
    right. eapply IH, H.
Qed.

Lemma elem_of_group_keys keys u :
  u ∈ group_keys keys -> u ∈ keys /\ complete u = true.
Proof.
  unfold group_keys. rewrite merge_sort_Permutation. intros H.
  apply uniques_subset in H. apply list_elem_of_In, filter_In in H as [H1 H2].
  split; [apply list_elem_of_In, H1 | exact H2].
Qed.

Lemma first_true (mask : list bool) :
  (exists r, mask !! r = Some true) ->
  exists r, mask !! r = Some true /\ forall r', r' < r -> mask !! r' <> Some true.
Proof.
  induction mask as [|b m IH]; intros (r & Hr); [destruct r; discriminate|].
  destruct b.
  - exists 0. split; [reflexivity | intros r' Hlt; lia].
  - destruct r as [|r]; [discriminate|]. simpl in Hr.
    destruct (IH (ex_intro _ r Hr)) as (r0 & H0 & Hmin).
    exists (S r0). split; [exact H0|].
    intros [|r'] Hlt; simpl; [discriminate | apply Hmin; lia].
Qed.

(** The rows of a group, as the properties word them, are the rows the
    mask of [groupby] picks. *)
Lemma complete_full k : complete k = full_key k.
Proof.
  unfold complete, full_key, has_missing, notna.
  induction k as [|v k IH]; simpl; [reflexivity|].
  rewrite IH, negb_orb. reflexivity.
Qed.

Lemma fmap_complete_full (keys : list (list value)) :
  complete <$> keys = full_key <$> keys.
Proof. apply list_fmap_ext. intros _ k _. apply complete_full. Qed.

Lemma filter_complete_full (keys : list (list value)) :
  List.filter complete keys = List.filter full_key keys.
Proof.
  induction keys as [|k keys IH]; simpl; [reflexivity|].
  rewrite complete_full, IH. reflexivity.
Qed.

Lemma group_mask_same keys u : group_mask keys u = same_group u <$> keys.
Proof.
  unfold group_mask, same_group. apply list_fmap_ext. intros _ k _.
  rewrite complete_full. reflexivity.
Qed.

Lemma in_group_mask keys u r :
  in_group keys u r <-> group_mask keys u !! r = Some true.
Proof.
  rewrite group_mask_same. unfold in_group. rewrite list_lookup_fmap.
  destruct (keys !! r) as [k|]; simpl; split.
  - intros (k' & [= <-] & H). rewrite H. reflexivity.
  - intros [= H]. exists k. auto.
  - intros (k' & H & _). discriminate H.
  - discriminate.
Qed.

Lemma first_row_mask keys u r :
  first_row keys u r <->
  group_mask keys u !! r = Some true /\
  forall r', r' < r -> group_mask keys u !! r' <> Some true.
Proof.
  unfold first_row. rewrite in_group_mask. split; intros [Hr Hmin]; (split; [exact Hr|]);
    intros r' Hlt H; apply (Hmin r' Hlt); apply in_group_mask; exact H.
Qed.

Lemma rows_where_take {A} (P : list value -> bool) keys (l : list A) :
  take_mask (P <$> keys) l = rows_where P keys l.
Proof.
  unfold rows_where. revert l; induction keys as [|k keys IH]; intros [|x l]; simpl;
    try reflexivity.
  - destruct (P k); reflexivity.
  - destruct (P k); simpl; rewrite IH; reflexivity.
Qed.

Lemma group_cells_take {A} keys u (l : list A) :
  take_mask (group_mask keys u) l = rows_where (same_group u) keys l.
Proof. rewrite group_mask_same. apply rows_where_take. Qed.

(** Every group has a first row. *)
Lemma group_has_first_row keys i u :
  group_keys keys !! i = Some u -> exists r, first_row keys u r.
Proof.
  intros Hu. apply list_elem_of_lookup_2 in Hu.
  apply elem_of_group_keys in Hu as [Hin Hc].
  apply list_elem_of_lookup_1 in Hin as (r & Hr).
  destruct (first_true (group_mask keys u)) as (r0 & H0).
  - exists r. unfold group_mask.
    rewrite list_lookup_fmap, Hr. simpl. rewrite Hc, (key_eqb_refl _ Hc). reflexivity.
  - exists r0. apply first_row_mask, H0.
Qed.

Lemma is_numeric_dtype_take mask s :
  is_numeric_dtype (Series_take mask s) = is_numeric_dtype s.
Proof. destruct s; reflexivity. Qed.


(** ** The order of strings *)

Lemma string_compare_refl s : String.compare s s = Eq.
Proof.
  induction s as [|a s IH]; simpl; [reflexivity|].
  unfold Ascii.compare. rewrite N.compare_refl. exact IH.
Qed.

Lemma string_compare_trans_le s1 s2 s3 :
  String.compare s1 s2 <> Gt -> String.compare s2 s3 <> Gt -> String.compare s1 s3 <> Gt.
Proof.
  revert s2 s3; induction s1 as [|a s1 IH]; intros [|b s2] [|c s3]; simpl; try congruence.
  unfold Ascii.compare.
  destruct (N.compare_spec (N_of_ascii a) (N_of_ascii b)) as [Eab|Lab|Gab]; try congruence;
  destruct (N.compare_spec (N_of_ascii b) (N_of_ascii c)) as [Ebc|Lbc|Gbc]; try congruence;
  destruct (N.compare_spec (N_of_ascii a) (N_of_ascii c)) as [Eac|Lac|Gac]; try congruence;
  try lia; try (intros; discriminate).
  apply IH.
Qed.

#[global] Instance Str_le_trans : Transitive Str.le.
Proof.
  intros s1 s2 s3. unfold Str.le, String.leb. intros H1 H2.
  pose proof (string_compare_trans_le s1 s2 s3) as H.
  destruct (String.compare s1 s2); try discriminate;
  destruct (String.compare s2 s3); try discriminate;
  destruct (String.compare s1 s3); try reflexivity; exfalso; apply H; congruence.
Qed.

#[global] Instance Str_le_total : Total Str.le.
Proof. intros s1 s2. apply String.leb_total. Qed.

(** ** [Series.mode()] *)

Section ModeFacts.
Context {A : Type} (eqb : A -> A -> bool) (le : A -> A -> Prop) `{!RelDecision le}.
Hypothesis eqb_spec : forall x y, eqb x y = true <-> x = y.
Context `{!Transitive le, !Total le}.

Lemma eqb_refl' x : eqb x x = true.
Proof. apply eqb_spec. reflexivity. Qed.

Lemma eqb_false x y : eqb x y = false <-> x <> y.
Proof.
  split.
  - intros E ->. rewrite eqb_refl' in E. discriminate.
  - intros Hne. destruct (eqb x y) eqn:E; [|reflexivity].
    apply eqb_spec in E. contradiction.
Qed.

Lemma cnt_snoc x l y : cnt eqb x (l ++ [y]) = cnt eqb x l + (if eqb y x then 1 else 0).
Proof.
  unfold cnt. rewrite List.filter_app, length_app. simpl.
  destruct (eqb x y) eqn:E.
  - apply eqb_spec in E as ->. rewrite eqb_refl'. reflexivity.
  - apply eqb_false in E. destruct (eqb y x) eqn:E'; [|reflexivity].
    apply eqb_spec in E'. congruence.
Qed.

Lemma cnt_pos x l : 0 < cnt eqb x l <-> x ∈ l.
Proof.
  unfold cnt. induction l as [|a l IH]; simpl.
  - split; [lia | intros H; inversion H].
  - rewrite elem_of_cons. destruct (eqb x a) eqn:E; simpl.
    + apply eqb_spec in E. split; [auto | lia].
    + apply eqb_false in E. rewrite IH. split; [auto | intros [?|?]; [contradiction | auto]].
Qed.

Lemma count_of_bump x y counts :
  count_of eqb x (bump eqb y counts) = count_of eqb x counts + (if eqb y x then 1 else 0).
Proof.
  induction counts as [|[z n] rest IH]; simpl.
  - destruct (eqb y x); reflexivity.
  - destruct (eqb z y) eqn:Ezy; simpl.
    + apply eqb_spec in Ezy as ->. destruct (eqb y x); lia.
    + destruct (eqb z x) eqn:Ezx; [|exact IH].
      apply eqb_spec in Ezx as ->. apply eqb_false in Ezy.
      destruct (eqb y x) eqn:E; [apply eqb_spec in E; congruence | lia].
Qed.

Lemma keys_bump x y counts :
  x ∈ (fst <$> bump eqb y counts) <-> x = y \/ x ∈ (fst <$> counts).
Proof.
  induction counts as [|[z n] rest IH]; simpl.
  - rewrite elem_of_cons. reflexivity.
  - destruct (eqb z y) eqn:Ezy; simpl; rewrite !elem_of_cons.
    + apply eqb_spec in Ezy as ->. tauto.
    + rewrite IH. tauto.
Qed.

Lemma NoDup_keys_bump y counts :
  NoDup (fst <$> counts) -> NoDup (fst <$> bump eqb y counts).
Proof.
  induction counts as [|[z n] rest IH]; simpl; intros H.
  - apply NoDup_singleton.
  - apply NoDup_cons in H as [Hz Hnd].
    destruct (eqb z y) eqn:Ezy; simpl; apply NoDup_cons; split; auto.
    rewrite keys_bump. intros [->|Hin]; [|contradiction].
    rewrite eqb_refl' in Ezy. discriminate.
Qed.

Lemma value_counts_snoc l y :
  value_counts eqb (l ++ [y]) = bump eqb y (value_counts eqb l).
Proof. unfold value_counts. rewrite fold_left_app. reflexivity. Qed.

Lemma count_of_value_counts x l : count_of eqb x (value_counts eqb l) = cnt eqb x l.
Proof.
  induction l as [|y l IH] using rev_ind; [reflexivity|].
  rewrite value_counts_snoc, count_of_bump, cnt_snoc, IH. reflexivity.
Qed.

Lemma keys_value_counts x l : x ∈ (fst <$> value_counts eqb l) <-> x ∈ l.
Proof.
  induction l as [|y l IH] using rev_ind.
  - simpl. split; intros H; inversion H.
  - rewrite value_counts_snoc, keys_bump, IH, elem_of_app, list_elem_of_singleton. tauto.
Qed.

Lemma NoDup_keys_value_counts l : NoDup (fst <$> value_counts eqb l).
Proof.
  induction l as [|y l IH] using rev_ind; [apply NoDup_nil_2|].
  rewrite value_counts_snoc. apply NoDup_keys_bump, IH.
Qed.

Lemma count_of_entry x n counts :
  NoDup (fst <$> counts) -> (x, n) ∈ counts -> count_of eqb x counts = n.
Proof.
  induction counts as [|[z k] rest IH]; simpl; intros Hnd Hin; [inversion Hin|].
  apply NoDup_cons in Hnd as [Hz Hnd].
  apply elem_of_cons in Hin as [[= <- <-]|Hin].
  - rewrite eqb_refl'. reflexivity.
  - destruct (eqb z x) eqn:E; [|auto].
    apply eqb_spec in E as ->. exfalso. apply Hz.
    apply list_elem_of_fmap. exists (x, n). auto.
Qed.

Lemma entry_count_of x counts :
  x ∈ (fst <$> counts) -> (x, count_of eqb x counts) ∈ counts.
Proof.
  induction counts as [|[z k] rest IH]; simpl; intros Hin; [inversion Hin|].
  destruct (eqb z x) eqn:E.
  - apply eqb_spec in E as ->. apply elem_of_cons. auto.
  - apply eqb_false in E. apply elem_of_cons in Hin as [->|Hin]; [contradiction|].
    apply elem_of_cons. auto.
Qed.

Lemma max_count_ge (counts : list (A * nat)) p : p ∈ counts -> snd p <= max_count counts.
Proof.
  induction counts as [|q rest IH]; intros H; [inversion H|].
  change (max_count (q :: rest)) with (Nat.max (snd q) (max_count rest)).
  apply elem_of_cons in H as [->|H]; [apply Nat.le_max_l|].
  etransitivity; [apply IH, H | apply Nat.le_max_r].
Qed.

Lemma max_count_attained (counts : list (A * nat)) :
  counts <> [] -> exists p, p ∈ counts /\ snd p = max_count counts.
Proof.
  induction counts as [|q rest IH]; [congruence|]. intros _.
  destruct rest as [|q' rest'].
  - exists q. split; [apply elem_of_cons; auto | apply eq_sym, Nat.max_0_r].
  - destruct IH as (p & Hp & Hmax); [congruence|].
    change (max_count (q :: q' :: rest')) with (Nat.max (snd q) (max_count (q' :: rest'))).
    destruct (Nat.max_spec (snd q) (max_count (q' :: rest'))) as [[_ ->]|[_ ->]].
    + exists p. split; [apply elem_of_cons; auto | exact Hmax].
    + exists q. split; [apply elem_of_cons; auto | reflexivity].
Qed.

(** The candidates of [modes], before sorting. *)
Lemma elem_of_top x l :
  x ∈ (fst <$> filter (fun p => snd p = max_count (value_counts eqb l)) (value_counts eqb l))
  <-> x ∈ l /\ cnt eqb x l = max_count (value_counts eqb l).
Proof.
  rewrite list_elem_of_fmap. split.
  - intros ([y n] & -> & Hin). apply list_elem_of_filter in Hin as [Htop Hin]. simpl in *.
    pose proof (count_of_entry _ _ _ (NoDup_keys_value_counts l) Hin) as Hc.
    rewrite count_of_value_counts in Hc. split; [|congruence].
    apply keys_value_counts, list_elem_of_fmap. exists (y, n). auto.
  - intros [Hin Hc]. exists (x, cnt eqb x l). split; [reflexivity|].
    apply list_elem_of_filter. split; [exact Hc|].
    rewrite <- count_of_value_counts. apply entry_count_of, keys_value_counts, Hin.
Qed.

Lemma cnt_le_top x l : cnt eqb x l <= max_count (value_counts eqb l).
Proof.
  destruct (Nat.eq_dec (cnt eqb x l) 0) as [->|Hpos]; [lia|].
  assert (Hin : x ∈ l) by (apply cnt_pos; lia).
  apply keys_value_counts, entry_count_of in Hin.
  rewrite count_of_value_counts in Hin.
  apply (max_count_ge _ _ Hin).
Qed.

Lemma elem_of_modes x l :
  x ∈ modes eqb le l <-> x ∈ l /\ forall y, cnt eqb y l <= cnt eqb x l.
Proof.
  unfold modes. rewrite merge_sort_Permutation, elem_of_top. split.
  - intros [Hin ->]. split; [exact Hin | intros y; apply cnt_le_top].
  - intros [Hin Hmax]. split; [exact Hin|].
    apply Nat.le_antisymm; [apply cnt_le_top|].
    destruct (max_count_attained (value_counts eqb l)) as ([y n] & Hy & <-).
    { intros E. apply keys_value_counts in Hin. rewrite E in Hin. inversion Hin. }
    simpl. rewrite <- (count_of_entry _ _ _ (NoDup_keys_value_counts l) Hy).
    rewrite count_of_value_counts. apply Hmax.
Qed.

Lemma modes_nonempty l : l <> [] -> modes eqb le l <> [].
Proof.
  intros Hl E.
  destruct (max_count_attained (value_counts eqb l)) as ([y n] & Hy & Hn).
  { destruct l as [|a l]; [congruence|]. intros E'.
    assert (H : a ∈ (fst <$> value_counts eqb (a :: l)))
      by (apply keys_value_counts, elem_of_cons; auto).
    rewrite E' in H. inversion H. }
  assert (H : y ∈ modes eqb le l).
  { unfold modes. rewrite merge_sort_Permutation. apply list_elem_of_fmap.
    exists (y, n). split; [reflexivity|]. apply list_elem_of_filter. auto. }
  rewrite E in H. inversion H.
Qed.

(** The first of the modes: a most frequent value, and the least of the
    most frequent values. *)
Lemma modes_head l m :
  head (modes eqb le l) = Some m ->
  m ∈ l /\ (forall x, cnt eqb x l <= cnt eqb m l) /\ (forall x, cnt eqb x l = cnt eqb m l -> le m x).
Proof.
  intros Hhead.
  assert (Hm : m ∈ modes eqb le l).
  { destruct (modes eqb le l); [discriminate|]. injection Hhead as ->. apply elem_of_cons; auto. }
  pose proof Hm as Hm'. apply elem_of_modes in Hm' as [Hin Hmax].
  split; [exact Hin|]. split; [exact Hmax|].
  intros x Hx.
  assert (Hxm : x ∈ modes eqb le l).
  { apply elem_of_modes. split.
    - apply cnt_pos. rewrite Hx. apply cnt_pos, Hin.
    - intros y. rewrite Hx. apply Hmax. }
  unfold modes in *.
  pose proof (StronglySorted_merge_sort le
    (fst <$> filter (fun p => snd p = max_count (value_counts eqb l)) (value_counts eqb l))) as Hs.
  destruct (merge_sort le _) as [|m0 rest]; [discriminate|].
  injection Hhead as ->.
  apply StronglySorted_inv in Hs as [_ Hall].
  apply elem_of_cons in Hxm as [->|Hxm].
  - destruct (total le m m); auto.
  - rewrite Forall_forall in Hall. apply Hall, Hxm.
Qed.

End ModeFacts.

(** ** The value kept for a parameter column *)

(** Settles [own_output_name] on a frame given in full. *)
Ltac own_name :=
  let q := fresh "q" in
  let Hq := fresh "Hq" in
  let Heq := fresh "Heq" in
  intros q Hq Heq; apply list_elem_of_In in Hq; simpl in Hq;
  repeat (destruct Hq as [<-|Hq];
          [first [reflexivity | vm_compute in Heq; discriminate Heq]|]);
  destruct Hq.

(** In a column of numeric dtype the value kept for a group is the cell of
    the first row of the group. *)
Lemma reduce_param_first_row keys i u s v :
  group_keys keys !! i = Some u ->
  is_numeric_dtype s = true ->
  reduce_param (Series_take (group_mask keys u) s) = Ok v ->
  exists r, first_row keys u r /\ cells s !! r = Some v.
Proof.
  intros Hu Hnum Hred.
  destruct (group_has_first_row _ _ _ Hu) as (r & Hfirst).
  pose proof (proj1 (first_row_mask _ _ _) Hfirst) as [Hr Hmin].
  unfold reduce_param in Hred. rewrite is_numeric_dtype_take, Hnum in Hred.
  unfold iloc0 in Hred. rewrite cells_take in Hred.
  pose proof (take_mask_head _ (cells s) _ Hr Hmin) as Hhead.
  destruct (take_mask (group_mask keys u) (cells s)) as [|v0 rest]; [discriminate Hred|].
  injection Hred as ->. simpl in Hhead.
  exists r. split; [exact Hfirst | symmetry; exact Hhead].
Qed.




(** A boolean column without missing cell is of numeric dtype too: the
    first of true, false, false is kept, not the most frequent. *)
Example bool_param_first :
  exists t, summarize bool_param = Ok t /\ table_cell t 0 "bootstrap" = Some (VBool true).
Proof. eexists. split; reflexivity. Qed.

(** The example of claim C1: the values 3, 3, 7 give 3. *)
Example three_seven_gives_three :
  exists t, summarize three_seven = Ok t /\ table_cell t 0 "depth" = Some (VInt 3).
Proof. eexists. split; reflexivity. Qed.








(** In [two_kernels] the most frequent value of the whole column is
    linear; the group of cfgA, one row between the rows of cfgB, keeps
    rbf. *)
Example two_kernels_summary :
  summarize two_kernels
  = Ok {| tcolumns := ["configuration"; "sample_size"; "iteration"; "kernel"];
          trows := [[VStr "cfgA"; VInt 100; VInt 1; VStr "rbf"];
                    [VStr "cfgB"; VInt 200; VInt 1; VStr "linear"]] |}.
Proof. reflexivity. Qed.

(** The two examples of claim C2: a, b, a gives a; adam, sgd (a tie) gives
    adam. *)
Example a_b_a_gives_a :
  exists t, summarize a_b_a = Ok t /\ table_cell t 0 "kernel" = Some (VStr "a").
Proof. eexists. split; reflexivity. Qed.

Example adam_sgd_gives_adam :
  exists t, summarize scenario = Ok t /\ table_cell t 0 "opt" = Some (VStr "adam").
Proof. eexists. split; reflexivity. Qed.


Lemma omap_id_all_None {A} (l : list (option A)) :
  (forall o, o ∈ l -> o = None) -> omap id l = [].
Proof.
  induction l as [|o l IH]; intros H; [reflexivity|].
  rewrite (H o) by (apply elem_of_cons; auto). simpl. apply IH.
  intros o' Ho'. apply H, elem_of_cons. auto.
Qed.

Lemma group_values_all_missing {A} (f : A -> value) keys u (d : list (option A)) :
  (forall r v, in_group keys u r -> (from_option f NaN <$> d) !! r = Some v -> isna v = true) ->
  (forall x, isna (f x) = false) ->
  omap id (take_mask (group_mask keys u) d) = [].
Proof.
  intros Hmiss Hf. apply omap_id_all_None. intros o Ho.
  apply elem_of_take_mask in Ho as (r & Hr & Hd).
  apply in_group_mask in Hr.
  specialize (Hmiss r (from_option f NaN o) Hr).
  rewrite list_lookup_fmap, Hd in Hmiss. specialize (Hmiss eq_refl).
  destruct o as [x|]; [|reflexivity]. simpl in Hmiss. rewrite Hf in Hmiss. discriminate.
Qed.

(** Claim C3, as amended.  In a successful run, for a group and a
    parameter column [p] of object dtype whose cell is missing in every row
    of the group, and that is the only parameter column with its output
    name, the summary value is the string ["N/A"]. *)
Theorem missing_object_gives_NA df t keys i u p s :
  summarize df = Ok t ->
  key_rows df key_columns = Ok keys ->
  group_keys keys !! i = Some u ->
  own_output_name df p ->
  Str.startswith "param_" p = true ->
  assoc p (series df) = Some s ->
  is_numeric_dtype s = false ->
  (forall r v, in_group keys u r -> cells s !! r = Some v -> isna v = true) ->
  table_cell t i (param_name p) = Some (VStr "N/A").
Proof.
  intros Hsum Hkeys Hu Hnd Hpre Hs Hobj Hmiss.
  destruct (summary_cell _ _ _ _ _ _ _ Hsum Hkeys Hu Hnd Hpre Hs) as (v & Hred & Hcell).
  rewrite Hcell. f_equal. f_equal.
  destruct s as [d|d|d|d|d|d]; try discriminate Hobj;
    unfold reduce_param, Series_empty, iloc0 in Hred; simpl in Hred, Hmiss;
    rewrite (group_values_all_missing _ _ _ _ Hmiss) in Hred by reflexivity;
    simpl in Hred; congruence.
Qed.

Lemma missing_object_gives_NA_witness :
  table_cell
    {| tcolumns := ["configuration"; "sample_size"; "iteration"; "lr"; "opt"];
       trows := [[VStr "cfgA"; VInt 100; VInt 1; NaN; VStr "N/A"];
                 [VStr "cfgB"; VInt 200; VInt 1; VFloat lr_002; VStr "adam"]] |}
    0 (param_name "param_opt") = Some (VStr "N/A").
Proof.
  apply (missing_object_gives_NA missing_in_group _
           [[VStr "cfgA"; VInt 100; VInt 1]; [VStr "cfgA"; VInt 100; VInt 1];
            [VStr "cfgB"; VInt 200; VInt 1]]
           0 [VStr "cfgA"; VInt 100; VInt 1] "param_opt"
           (ObjectStr [None; None; Some "adam"])).
  - reflexivity.
  - reflexivity.
  - reflexivity.
  - own_name.
  - reflexivity.
  - reflexivity.
  - reflexivity.
  - intros [|[|[|r]]] v (k & Hk & Hsame) Hc; simpl in Hk; try (discriminate Hk).
    + injection Hc as <-. reflexivity.
    + injection Hc as <-. reflexivity.
    + injection Hk as <-. discriminate Hsame.
Defined.

(** Claim C3 as stated fails: in a float64 column (another group holds a
    number) the group without values keeps its first cell, the missing
    marker NaN, not the string ["N/A"]. *)
Lemma missing_numeric_counterexample :
  exists t,
    summarize missing_in_group = Ok t /\
    table_cell t 0 "lr" = Some NaN /\
    table_cell t 0 "lr" <> Some (VStr "N/A").
Proof. eexists. repeat split; try reflexivity. discriminate. Qed.

(** ** Equality of keys *)

Lemma finite_cmp_eq (m1 m2 : positive) (e1 e2 : Z) :
  match Z.compare e1 e2 with
  | Eq => Pos.compare_cont Eq m1 m2
  | Lt => Lt
  | Gt => Gt
  end = Eq <-> m1 = m2 /\ e1 = e2.
Proof.
  change (Pos.compare_cont Eq m1 m2) with (Pos.compare m1 m2).
  destruct (Z.compare_spec e1 e2) as [He|He|He].
  - rewrite Pos.compare_eq_iff. tauto.
  - split; [discriminate | intros [_ E]; lia].
  - split; [discriminate | intros [_ E]; lia].
Qed.

Lemma finite_cmp_opp_eq (m1 m2 : positive) (e1 e2 : Z) :
  match Z.compare e1 e2 with
  | Eq => CompOpp (Pos.compare_cont Eq m1 m2)
  | Lt => Gt
  | Gt => Lt
  end = Eq <-> m1 = m2 /\ e1 = e2.
Proof.
  change (Pos.compare_cont Eq m1 m2) with (Pos.compare m1 m2).
  destruct (Z.compare_spec e1 e2) as [He|He|He].
  - destruct (Pos.compare_spec m1 m2); simpl; split; try discriminate; try tauto; intros [E _]; lia.
  - split; [discriminate | intros [_ E]; lia].
  - split; [discriminate | intros [_ E]; lia].
Qed.

Lemma SFeqb_true a b :
  SFeqb a b = true <->
  match a, b with
  | S754_zero _, S754_zero _ => True
  | S754_infinity s1, S754_infinity s2 => s1 = s2
  | S754_finite s1 m1 e1, S754_finite s2 m2 e2 => s1 = s2 /\ m1 = m2 /\ e1 = e2
  | _, _ => False
  end.
Proof.
  unfold SFeqb, SFcompare.
  destruct a as [s1|s1| |s1 m1 e1], b as [s2|s2| |s2 m2 e2];
    try (destruct s1); try (destruct s2);
    try (split; [discriminate | tauto]);
    try (split; [discriminate | discriminate]);
    try (split; [reflexivity | reflexivity]);
    try (split; [tauto | reflexivity]).
  all: try (split; [discriminate | intros [E _]; discriminate E]).
  - pose proof (finite_cmp_opp_eq m1 m2 e1 e2) as H.
    destruct (match (e1 ?= e2)%Z with Eq => CompOpp (Pos.compare_cont Eq m1 m2) | Lt => Gt | Gt => Lt end);
      split; try discriminate; try tauto; intros (_ & E); apply H in E; discriminate.
  - pose proof (finite_cmp_eq m1 m2 e1 e2) as H.
    destruct (match (e1 ?= e2)%Z with Eq => Pos.compare_cont Eq m1 m2 | Lt => Lt | Gt => Gt end);
      split; try discriminate; try tauto; intros (_ & E); apply H in E; discriminate.
Qed.

Lemma SFeqb_sym a b : SFeqb a b = SFeqb b a.
Proof.
  apply eq_true_iff_eq. rewrite !SFeqb_true.
  destruct a, b; try tauto; split; intuition congruence.
Qed.

Lemma SFeqb_trans a b c : SFeqb a b = true -> SFeqb b c = true -> SFeqb a c = true.
Proof.
  rewrite !SFeqb_true. destruct a, b, c; try tauto; intuition congruence.
Qed.

Lemma value_eqb_sym v1 v2 : value_eqb v1 v2 = value_eqb v2 v1.
Proof.
  destruct v1, v2; simpl; try reflexivity.
  - apply Z.eqb_sym.
  - apply SFeqb_sym.
  - destruct b, b0; reflexivity.
  - apply String.eqb_sym.
Qed.

Lemma value_eqb_trans v1 v2 v3 :
  value_eqb v1 v2 = true -> value_eqb v2 v3 = true -> value_eqb v1 v3 = true.
Proof.
  destruct v1, v2, v3; simpl; try discriminate.
  - rewrite !Z.eqb_eq. congruence.
  - apply SFeqb_trans.
  - destruct b, b0, b1; auto.
  - rewrite !String.eqb_eq. congruence.
Qed.

Lemma key_eqb_sym k1 k2 : key_eqb k1 k2 = key_eqb k2 k1.
Proof.
  revert k2; induction k1 as [|v1 k1 IH]; intros [|v2 k2]; simpl; try reflexivity.
  rewrite value_eqb_sym, IH. reflexivity.
Qed.

Lemma key_eqb_trans k1 k2 k3 :
  key_eqb k1 k2 = true -> key_eqb k2 k3 = true -> key_eqb k1 k3 = true.
Proof.
  revert k2 k3; induction k1 as [|v1 k1 IH]; intros [|v2 k2] [|v3 k3]; simpl; try discriminate; auto.
  rewrite !andb_true_iff. intros [H1 H2] [H3 H4]. split.
  - eapply value_eqb_trans; eauto.
  - eapply IH; eauto.
Qed.

(** Equal keys are equal to the same keys. *)
Lemma key_eqb_congr k1 k2 k : key_eqb k1 k2 = true -> key_eqb k1 k = key_eqb k2 k.
Proof.
  intros H. apply eq_true_iff_eq. split; intros H'.
  - apply (key_eqb_trans k2 k1 k); [rewrite key_eqb_sym|]; assumption.
  - apply (key_eqb_trans k1 k2 k); assumption.
Qed.

Lemma existsb_ext_in {A} (f g : A -> bool) l :
  (forall x, x ∈ l -> f x = g x) -> existsb f l = existsb g l.
Proof.
  induction l as [|a l IH]; intros H; simpl; [reflexivity|].
  rewrite (H a) by (apply elem_of_cons; auto). f_equal.
  apply IH. intros x Hx. apply H, elem_of_cons. auto.
Qed.

Lemma existsb_key_congr k1 k2 l :
  key_eqb k1 k2 = true -> existsb (key_eqb k1) l = existsb (key_eqb k2) l.
Proof. intros H. apply existsb_ext_in. intros x _. apply key_eqb_congr, H. Qed.

Lemma existsb_filter_other a k l :
  key_eqb a k = false ->
  existsb (key_eqb a) (List.filter (fun x => negb (key_eqb x k)) l) = existsb (key_eqb a) l.
Proof.
  intros Hak. induction l as [|x l IH]; simpl; [reflexivity|].
  destruct (key_eqb x k) eqn:Exk; simpl; rewrite IH; [|reflexivity].
  destruct (key_eqb a x) eqn:Eax; [|reflexivity].
  rewrite (key_eqb_trans a x k Eax Exk) in Hak. discriminate.
Qed.

(** Dropping the keys equal to [k] lowers the number of distinct keys by
    one when [k] occurs, and leaves it otherwise. *)
Lemma distinct_count_remove k l :
  S (distinct_count (List.filter (fun x => negb (key_eqb x k)) l))
  = if existsb (key_eqb k) l then distinct_count l else S (distinct_count l).
Proof.
  induction l as [|a l IH]; simpl; [reflexivity|].
  destruct (key_eqb a k) eqn:Eak; simpl.
  - rewrite key_eqb_sym, Eak. simpl. rewrite IH.
    rewrite (existsb_key_congr a k l Eak). reflexivity.
  - rewrite key_eqb_sym, Eak. simpl.
    rewrite (existsb_filter_other a k l Eak).
    destruct (existsb (key_eqb a) l); rewrite IH; destruct (existsb (key_eqb k) l); reflexivity.
Qed.

Lemma filter_filter_seen k seen l :
  List.filter (fun x => negb (key_eqb x k))
    (List.filter (fun k0 => negb (existsb (key_eqb k0) seen)) l)
  = List.filter (fun k0 => negb (existsb (key_eqb k0) (k :: seen))) l.
Proof.
  induction l as [|a l IH]; simpl; [reflexivity|].
  destruct (existsb (key_eqb a) seen); simpl.
  - rewrite orb_true_r. simpl. exact IH.
  - rewrite orb_false_r. destruct (key_eqb a k); simpl; rewrite IH; reflexivity.
Qed.

Lemma uniques_length seen l :
  length (uniques seen l)
  = distinct_count (List.filter (fun k => negb (existsb (key_eqb k) seen)) l).
Proof.
  revert seen; induction l as [|k l IH]; intros seen; simpl; [reflexivity|].
  destruct (existsb (key_eqb k) seen) eqn:E; simpl; [apply IH|].
  rewrite IH, <- filter_filter_seen. apply distinct_count_remove.
Qed.

Lemma filter_true {A} (P : A -> bool) l : (forall x, P x = true) -> List.filter P l = l.
Proof.
  intros H. induction l as [|a l IH]; simpl; [reflexivity|]. rewrite H, IH. reflexivity.
Qed.

(** As many groups as there are distinct complete keys. *)
Lemma group_keys_length keys :
  length (group_keys keys) = distinct_count (List.filter complete keys).
Proof.
  unfold group_keys. rewrite merge_sort_Permutation, uniques_length.
  rewrite filter_true; [reflexivity | intros x; reflexivity].
Qed.

(** How many of the collected keys equal [k]. *)
Lemma uniques_count k seen l :
  complete k = true ->
  length (List.filter (key_eqb k) (uniques seen l))
  = if existsb (key_eqb k) seen then 0
    else if existsb (key_eqb k) l then 1 else 0.
Proof.
  intros Hk. revert seen; induction l as [|a l IH]; intros seen; simpl.
  - destruct (existsb (key_eqb k) seen); reflexivity.
  - destruct (existsb (key_eqb a) seen) eqn:Ea; simpl.
    + rewrite IH. destruct (existsb (key_eqb k) seen) eqn:Ek; [reflexivity|].
      destruct (key_eqb k a) eqn:Eka; [|reflexivity].
      rewrite (existsb_key_congr k a seen Eka), Ea in Ek. discriminate.
    + destruct (key_eqb k a) eqn:Eka; simpl.
      * rewrite IH. simpl. rewrite Eka. simpl.
        rewrite (existsb_key_congr k a seen Eka), Ea. reflexivity.
      * rewrite IH. simpl. rewrite Eka. reflexivity.
Qed.

Lemma existsb_key_elem k l : complete k = true -> k ∈ l -> existsb (key_eqb k) l = true.
Proof.
  intros Hk Hin. apply existsb_exists. exists k.
  split; [apply list_elem_of_In, Hin | apply key_eqb_refl, Hk].
Qed.

Lemma filter_length_Permutation {A} (P : A -> bool) l1 l2 :
  l1 ≡ₚ l2 -> length (List.filter P l1) = length (List.filter P l2).
Proof.
  induction 1 as [|x l1 l2 _ IH|x y l|l1 l2 l3 _ IH1 _ IH2]; simpl.
  - reflexivity.
  - destruct (P x); simpl; congruence.
  - destruct (P x), (P y); reflexivity.
  - congruence.
Qed.

(** Exactly one group for the key of a row without missing key cell. *)
Lemma group_keys_one keys r k :
  keys !! r = Some k -> complete k = true ->
  length (List.filter (key_eqb k) (group_keys keys)) = 1.
Proof.
  intros Hr Hk. unfold group_keys.
  rewrite (filter_length_Permutation _ _ _ (merge_sort_Permutation _ _)).
  rewrite (uniques_count _ _ _ Hk). simpl.
  rewrite existsb_key_elem; [reflexivity | exact Hk|].
  apply list_elem_of_In, filter_In. split; [|exact Hk].
  apply list_elem_of_In, list_elem_of_lookup_2 with r, Hr.
Qed.

(** ** One row per group *)

Lemma summary_row_Ok pcs u g d :
  summary_row pcs (u, g) = Ok d ->
  exists c1 c2 c3,
    u = [c1; c2; c3] /\
    result_foldM (add_param g) pcs
      [("configuration", c1); ("sample_size", c2); ("iteration", c3)] = Ok d.
Proof.
  unfold summary_row. simpl.
  destruct u as [|c1 [|c2 [|c3 [|]]]]; try discriminate. eauto 6.
Qed.

(** Claim C4, as amended.  In a successful run the summary table has one
    row per group, the groups are the distinct keys of the rows without a
    missing key cell, each such key has exactly one group, and (when no
    parameter column is named like a key column) the row of a group shows
    its key. *)
Theorem one_row_per_complete_key df t keys :
  summarize df = Ok t ->
  key_rows df key_columns = Ok keys ->
  length (trows t) = distinct_count (List.filter complete keys) /\
  length (trows t) = length (group_keys keys) /\
  (forall r k, keys !! r = Some k -> complete k = true ->
     length (List.filter (key_eqb k) (group_keys keys)) = 1) /\
  (forall u, u ∈ group_keys keys -> u ∈ keys /\ complete u = true) /\
  (forall i u,
     group_keys keys !! i = Some u ->
     (forall p, p ∈ param_columns_of df -> param_name p ∉ key_columns) ->
     [table_cell t i "configuration"; table_cell t i "sample_size";
      table_cell t i "iteration"] = Some <$> u).
Proof.
  intros Hsum Hkeys.
  apply summarize_Ok in Hsum as (keys' & rows & Hkeys' & Hrows & Hsel).
  rewrite Hkeys in Hkeys'. injection Hkeys' as <-.
  assert (Hlen : length (trows t) = length (group_keys keys)).
  { pose proof (getitem_columns_Ok _ _ _ Hsel) as (_ & _ & ->). simpl.
    rewrite !length_fmap, (result_mapM_length _ _ _ Hrows), length_fmap. reflexivity. }
  split; [rewrite Hlen; apply group_keys_length|].
  split; [exact Hlen|].
  split; [apply group_keys_one|].
  split; [apply elem_of_group_keys|].
  intros i u Hu Hfree.
  destruct (result_mapM_lookup _ _ _ i (u, DataFrame_take (group_mask keys u) df) Hrows)
    as (d & Hd & Hrow).
  { rewrite list_lookup_fmap, Hu. reflexivity. }
  apply summary_row_Ok in Hrow as (c1 & c2 & c3 & -> & Hfold).
  assert (Hkey : forall c, c ∈ key_columns ->
            table_cell t i c
            = Some (default NaN (dict_get c
                [("configuration", c1); ("sample_size", c2); ("iteration", c3)]))).
  { intros c Hc.
    rewrite (table_cell_dict _ _ _ _ _ c Hsel Hd).
    - rewrite (foldM_add_param_other _ _ _ _ c Hfold); [reflexivity|].
      intros Hin. apply list_elem_of_fmap in Hin as (p & -> & Hp).
      exact (Hfree p Hp Hc).
    - unfold ordered_columns_of. apply elem_of_app. auto. }
  rewrite !Hkey by (unfold key_columns; set_solver). reflexivity.
Qed.

Lemma one_row_per_complete_key_witness :
  length (trows {| tcolumns := ["configuration"; "sample_size"; "iteration"; "depth"];
                   trows := [[VStr "cfgA"; VInt 100; VInt 1; VInt 7]] |})
  = distinct_count (List.filter complete [[NaN; VInt 100; VInt 1]; [VStr "cfgA"; VInt 100; VInt 1]]).
Proof.
  apply (one_row_per_complete_key missing_key); reflexivity.
Defined.

(** Claim C4 as stated fails: the two rows of this input have two distinct
    key triples, one of them without a configuration, and the summary
    table has one row. *)
Lemma incomplete_key_counterexample :
  exists t keys,
    summarize missing_key = Ok t /\
    key_rows missing_key key_columns = Ok keys /\
    distinct_count keys = 2 /\
    length (trows t) = 1.
Proof. do 2 eexists. repeat split; reflexivity. Qed.

(** ** Rows with a missing key cell *)

Lemma cell_rows_S n css :
  cell_rows (S n) css = (hd NaN <$> css) :: cell_rows n (tail <$> css).
Proof.
  unfold cell_rows. simpl. f_equal.
  - apply list_fmap_ext. intros _ [|v c] _; reflexivity.
  - rewrite <- seq_shift, <- !list_fmap_compose.
    apply list_fmap_ext. intros _ r _. simpl.
    rewrite <- list_fmap_compose. apply list_fmap_ext. intros _ [|v c] _; simpl; [|reflexivity].
    destruct r; reflexivity.
Qed.

Lemma cell_rows_length n css : length (cell_rows n css) = n.
Proof. unfold cell_rows. rewrite length_fmap. apply length_seq. Qed.

Lemma complete_heads_cons css :
  complete (hd NaN <$> css) = true ->
  forall c, c ∈ css -> c = hd NaN c :: tail c.
Proof.
  unfold complete. induction css as [|c0 css IH]; simpl; intros H c Hc; [inversion Hc|].
  apply andb_true_iff in H as [H0 H].
  apply elem_of_cons in Hc as [->|Hc]; [|auto].
  destruct c0; [discriminate | reflexivity].
Qed.

(** The keys of the frame without its incomplete rows are the complete
    keys of the frame. *)
Lemma cell_rows_take n css :
  cell_rows (length (List.filter complete (cell_rows n css)))
    (take_mask (complete <$> cell_rows n css) <$> css)
  = List.filter complete (cell_rows n css).
Proof.
  revert css; induction n as [|n IH]; intros css; [reflexivity|].
  rewrite cell_rows_S. simpl.
  destruct (complete (hd NaN <$> css)) eqn:E; simpl.
  - rewrite cell_rows_S. f_equal.
    + rewrite <- list_fmap_compose. apply list_fmap_ext. intros j c Hc.
      apply list_elem_of_lookup_2 in Hc.
      rewrite (complete_heads_cons _ E c Hc). reflexivity.
    + etransitivity; [|apply IH]. f_equal. rewrite <- !list_fmap_compose.
      apply list_fmap_ext. intros j c Hc. apply list_elem_of_lookup_2 in Hc.
      rewrite (complete_heads_cons _ E c Hc). reflexivity.
  - etransitivity; [|apply IH]. f_equal. rewrite <- !list_fmap_compose.
    apply list_fmap_ext. intros _ [|v c] _; simpl; [|reflexivity].
    symmetry. apply take_mask_nil.
Qed.

Lemma result_mapM_getitem_take mask df by_ ss :
  result_mapM (getitem df) by_ = Ok ss ->
  result_mapM (getitem (DataFrame_take mask df)) by_ = Ok (Series_take mask <$> ss).
Proof.
  revert ss; induction by_ as [|c by_ IH]; intros ss; simpl.
  - intros [= <-]. reflexivity.
  - intros H. apply result_bind_Ok in H as (s & Hs & H).
    apply result_bind_Ok in H as (ss' & Hss & H). injection H as <-.
    unfold getitem in Hs. destruct (assoc c (series df)) as [s0|] eqn:Ea; [|discriminate].
    injection Hs as ->.
    rewrite (getitem_take _ _ _ _ Ea). simpl. rewrite (IH _ Hss). reflexivity.
Qed.

Lemma key_rows_length df by_ keys : key_rows df by_ = Ok keys -> length keys = nrows df.
Proof.
  unfold key_rows. intros H. apply result_bind_Ok in H as (ss & _ & H).
  injection H as <-. apply cell_rows_length.
Qed.

Lemma filter_id_fmap {A} (P : A -> bool) l :
  length (List.filter id (P <$> l)) = length (List.filter P l).
Proof.
  induction l as [|a l IH]; simpl; [reflexivity|].
  unfold id at 1. destruct (P a); simpl; [f_equal|]; exact IH.
Qed.

Lemma key_rows_without_incomplete df keys :
  key_rows df key_columns = Ok keys ->
  key_rows (DataFrame_take (complete <$> keys) df) key_columns
  = Ok (List.filter complete keys).
Proof.
  intros Hkeys. pose proof (key_rows_length _ _ _ Hkeys) as Hlen.
  unfold key_rows in *. apply result_bind_Ok in Hkeys as (ss & Hss & Hkeys).
  injection Hkeys as <-.
  rewrite (result_mapM_getitem_take _ _ _ _ Hss). simpl.
  unfold row_keys in *. f_equal.
  rewrite take_ge by (rewrite length_fmap; lia).
  rewrite filter_id_fmap.
  etransitivity; [|apply cell_rows_take]. f_equal.
  rewrite <- !list_fmap_compose. apply list_fmap_ext. intros _ s _. simpl.
  apply cells_take.
Qed.

Lemma filter_filter_same {A} (P : A -> bool) l :
  List.filter P (List.filter P l) = List.filter P l.
Proof.
  induction l as [|a l IH]; simpl; [reflexivity|].
  destruct (P a) eqn:E; simpl; rewrite ?E, IH; reflexivity.
Qed.

Lemma Series_take_take (P Q : list value -> bool) keys s :
  Series_take (Q <$> List.filter P keys) (Series_take (P <$> keys) s)
  = Series_take ((fun k => P k && Q k) <$> keys) s.
Proof. destruct s; simpl; rewrite take_mask_take_mask; reflexivity. Qed.

Lemma filter_id_take_take (P Q : list value -> bool) keys :
  length (List.filter id (Q <$> List.filter P keys))
  = length (List.filter id ((fun k => P k && Q k) <$> keys)).
Proof.
  induction keys as [|k keys IH]; simpl; [reflexivity|].
  destruct (P k); simpl; [|exact IH].
  unfold id at 1 3. destruct (Q k); simpl; [f_equal|]; exact IH.
Qed.

Lemma group_mask_complete keys u :
  group_mask keys u = (fun k => complete k && (complete k && key_eqb k u)) <$> keys.
Proof.
  unfold group_mask. apply list_fmap_ext. intros _ k _.
  destruct (complete k); reflexivity.
Qed.

(** A group of the frame without its incomplete rows is the same frame as
    the group of the whole frame. *)
Lemma group_without_incomplete df keys u :
  length keys = nrows df ->
  DataFrame_take (group_mask (List.filter complete keys) u)
    (DataFrame_take (complete <$> keys) df)
  = DataFrame_take (group_mask keys u) df.
Proof.
  intros Hlen. unfold DataFrame_take. simpl. f_equal.
  - rewrite (take_ge (group_mask keys u)) by (unfold group_mask; rewrite length_fmap; lia).
    rewrite (take_ge (complete <$> keys)) by (rewrite length_fmap; lia).
    rewrite take_ge by (unfold group_mask; rewrite length_fmap, filter_id_fmap; lia).
    rewrite (group_mask_complete keys u). unfold group_mask at 1.
    apply filter_id_take_take.
  - rewrite <- list_fmap_compose. apply list_fmap_ext. intros _ [c s] _. simpl.
    unfold prod_map. simpl. f_equal.
    rewrite (group_mask_complete keys u). unfold group_mask.
    apply Series_take_take.
Qed.

Lemma columns_take mask df : columns (DataFrame_take mask df) = columns df.
Proof.
  unfold columns, DataFrame_take. simpl. rewrite <- list_fmap_compose.
  apply list_fmap_ext. intros _ [c s] _. reflexivity.
Qed.

Lemma groupby_without_incomplete df keys :
  key_rows df key_columns = Ok keys ->
  groupby (DataFrame_take (complete <$> keys) df) key_columns = groupby df key_columns.
Proof.
  intros Hkeys. unfold groupby.
  rewrite (key_rows_without_incomplete _ _ Hkeys), Hkeys. simpl. f_equal.
  unfold group_keys. rewrite filter_filter_same.
  apply list_fmap_ext. intros _ u _. f_equal.
  apply group_without_incomplete, (key_rows_length _ _ _ Hkeys).
Qed.

Lemma Series_where_take P keys s : Series_where P keys s = Series_take (P <$> keys) s.
Proof. destruct s; simpl; rewrite rows_where_take; reflexivity. Qed.

(** The frame without its incomplete rows, as the property words it, is
    the frame the mask of the complete rows selects. *)
Lemma without_incomplete_rows_take df keys :
  key_rows df key_columns = Ok keys ->
  without_incomplete_rows df = DataFrame_take (complete <$> keys) df.
Proof.
  intros Hkeys. unfold without_incomplete_rows, DataFrame_take. rewrite Hkeys. f_equal.
  - rewrite take_ge by (rewrite length_fmap, (key_rows_length _ _ _ Hkeys); lia).
    rewrite filter_id_fmap. symmetry. f_equal. apply filter_complete_full.
  - apply list_fmap_ext. intros j [c s] _. unfold prod_map. simpl. f_equal.
    rewrite fmap_complete_full. apply Series_where_take.
Qed.

Lemma sum_list_fmap_add {A} (f g : A -> nat) l :
  sum_list ((fun x => f x + g x) <$> l) = sum_list (f <$> l) + sum_list (g <$> l).
Proof. induction l as [|a l IH]; csimpl; [reflexivity | rewrite IH; unfold id; lia]. Qed.

Lemma sum_list_indicator {A} (P : A -> bool) l :
  sum_list ((fun x => if P x then 1 else 0) <$> l) = length (List.filter P l).
Proof.
  induction l as [|a l IH]; csimpl; [reflexivity|].
  destruct (P a); csimpl; rewrite IH; reflexivity.
Qed.

Lemma sum_list_zero {A} (l : list A) : sum_list ((fun _ => 0) <$> l) = 0.
Proof. induction l as [|a l IH]; csimpl; [reflexivity | exact IH]. Qed.

(** When every complete key has exactly one group among [us], the sizes
    of the groups add up to the number of complete keys. *)
Lemma sum_group_sizes keys us :
  (forall k, k ∈ keys -> full_key k = true -> length (List.filter (key_eqb k) us) = 1) ->
  sum_list ((fun u => length (List.filter (same_group u) keys)) <$> us)
  = length (List.filter full_key keys).
Proof.
  induction keys as [|k keys IH]; intros Hone; simpl.
  - apply sum_list_zero.
  - transitivity
      (sum_list ((fun u => (if same_group u k then 1 else 0)
                           + length (List.filter (same_group u) keys)) <$> us)).
    { f_equal. apply list_fmap_ext. intros _ u _. destruct (same_group u k); reflexivity. }
    rewrite sum_list_fmap_add, IH by (intros k' Hk'; apply Hone, elem_of_cons; auto).
    unfold same_group at 1. destruct (full_key k) eqn:Hc; simpl.
    + rewrite sum_list_indicator, (Hone k) by (auto; apply elem_of_cons; auto). reflexivity.
    + rewrite sum_list_zero. reflexivity.
Qed.

Lemma group_nrows df keys u :
  length keys = nrows df ->
  nrows (DataFrame_take (group_mask keys u) df) = length (List.filter (same_group u) keys).
Proof.
  intros Hlen. unfold DataFrame_take. simpl.
  rewrite take_ge by (unfold group_mask; rewrite length_fmap; lia).
  rewrite group_mask_same. apply filter_id_fmap.
Qed.

(** Claim C9.  A row with a missing key cell raises nothing and adds
    nothing: the run on a frame is the run on the frame without such rows
    (the same summary table or the same exception); the groups the loop
    goes through have, together, as many rows as there are rows without
    missing key cell; and each of them holds, in every column and in input
    order, the cells of the rows whose key has no missing cell and is the
    key of the group, and no other. *)
Theorem incomplete_rows_excluded df :
  summarize (without_incomplete_rows df) = summarize df /\
  (forall keys groups,
     key_rows df key_columns = Ok keys ->
     groupby df key_columns = Ok groups ->
     sum_list ((fun ug => nrows (snd ug)) <$> groups) = length (List.filter full_key keys) /\
     (forall u g,
        (u, g) ∈ groups ->
        nrows g = length (List.filter (same_group u) keys) /\
        (forall c s,
           assoc c (series df) = Some s ->
           exists s',
             assoc c (series g) = Some s' /\
             cells s' = rows_where (same_group u) keys (cells s)))).
Proof.
  split.
  - destruct (key_rows df key_columns) as [keys|e] eqn:Hkeys.
    + rewrite (without_incomplete_rows_take _ _ Hkeys).
      unfold summarize, param_columns_of.
      rewrite (groupby_without_incomplete _ _ Hkeys), columns_take. reflexivity.
    + unfold without_incomplete_rows. rewrite Hkeys. reflexivity.
  - intros keys groups Hkeys Hgroups.
    pose proof (key_rows_length _ _ _ Hkeys) as Hlen.
    unfold groupby in Hgroups. rewrite Hkeys in Hgroups. simpl in Hgroups.
    injection Hgroups as <-. split.
    + rewrite <- list_fmap_compose.
      rewrite <- (sum_group_sizes keys (group_keys keys)).
      * f_equal. apply list_fmap_ext. intros _ u _. simpl. apply group_nrows, Hlen.
      * intros k Hk Hc. apply list_elem_of_lookup_1 in Hk as (r & Hr).
        rewrite <- complete_full in Hc. apply (group_keys_one _ _ _ Hr Hc).
    + intros u g Hg. apply list_elem_of_fmap in Hg as (u' & [= -> ->] & _).
      split; [apply group_nrows, Hlen|].
      intros c s Hs. exists (Series_take (group_mask keys u') s). split.
      * simpl. rewrite assoc_fmap, Hs. reflexivity.
      * rewrite cells_take. apply group_cells_take.
Qed.

Lemma incomplete_rows_excluded_witness :
  summarize (without_incomplete_rows missing_key) = summarize missing_key /\
  exists g s',
    groupby missing_key key_columns = Ok [([VStr "cfgA"; VInt 100; VInt 1], g)] /\
    nrows g = 1 /\
    assoc "param_depth" (series g) = Some s' /\
    cells s' = [VInt 7].
Proof.
  destruct (incomplete_rows_excluded missing_key) as [Hsame Hgroups].
  split; [exact Hsame|].
  destruct (Hgroups [[NaN; VInt 100; VInt 1]; [VStr "cfgA"; VInt 100; VInt 1]]
              [([VStr "cfgA"; VInt 100; VInt 1],
                DataFrame_take [false; true] missing_key)] eq_refl eq_refl) as [_ Hg].
  destruct (Hg _ _ (list_elem_of_here _ _)) as [Hn Hcells].
  destruct (Hcells "param_depth" (Int64 [3; 7]%Z) eq_refl) as (s' & Hs' & Hc).
  exists (DataFrame_take [false; true] missing_key), s'.
  split; [reflexivity|]. split; [exact Hn|]. split; [exact Hs' | exact Hc].
Defined.

(** The frame [missing_key] without its first row, whose key lacks the
    configuration. *)
Example missing_key_without_incomplete :
  without_incomplete_rows missing_key
  = {| nrows := 1;
       series :=
         [("configuration", ObjectStr [Some "cfgA"]);
          ("sample_size", Int64 [100]%Z);
          ("iteration", Int64 [1]%Z);
          ("param_depth", Int64 [7]%Z)] |}.
Proof. reflexivity. Qed.

(** The groups come in ascending order of their keys, whatever the order
    of the rows: here cfgB is met first. *)
Example groups_sorted :
  group_keys [[VStr "cfgB"; VInt 200; VInt 1]; [VStr "cfgA"; VInt 100; VInt 2];
              [VStr "cfgA"; VInt 100; VInt 1]; [VStr "cfgB"; VInt 200; VInt 1]]
  = [[VStr "cfgA"; VInt 100; VInt 1]; [VStr "cfgA"; VInt 100; VInt 2];
     [VStr "cfgB"; VInt 200; VInt 1]].
Proof. reflexivity. Qed.

(** The row without a configuration leaves one group, made of the other
    row alone. *)
Example missing_key_summary :
  summarize missing_key
  = Ok {| tcolumns := ["configuration"; "sample_size"; "iteration"; "depth"];
          trows := [[VStr "cfgA"; VInt 100; VInt 1; VInt 7]] |}.
Proof. reflexivity. Qed.

(** ** Output names and the order of the columns *)

Lemma startswith_contains old s : Str.contains old s = false -> Str.startswith old s = false.
Proof. destruct s; simpl; intros H; apply orb_false_iff in H as [H _]; exact H. Qed.

Lemma replace_scan_absent old s :
  Str.contains old s = false -> Str.replace_scan old "" 0 s = s.
Proof.
  induction s as [|c s IH]; [reflexivity|].
  intros H. pose proof (startswith_contains _ _ H) as Hs.
  cbn [Str.replace_scan]. rewrite Hs. f_equal. apply IH.
  simpl in H. apply orb_false_iff in H as [_ H]. exact H.
Qed.

Lemma startswith_app p s : Str.startswith p s = true -> s = (p ++ Str.drop (String.length p) s)%string.
Proof.
  revert s; induction p as [|a p IH]; intros s; simpl.
  - destruct s; reflexivity.
  - destruct s as [|b s]; [discriminate|].
    destruct (Ascii.eqb a b) eqn:E; [|discriminate].
    apply Ascii.eqb_eq in E as ->. intros H.
    change (String b s = String b (p ++ Str.drop (String.length p) s)%string).
    f_equal. apply IH, H.
Qed.

Lemma replace_scan_skip old n s :
  Str.replace_scan old "" n s = Str.replace_scan old "" 0 (Str.drop n s).
Proof.
  revert s; induction n as [|n IH]; intros s.
  - destruct s; reflexivity.
  - destruct s as [|c s]; [reflexivity|]. cbn [Str.replace_scan Str.drop]. apply IH.
Qed.

(** Where [param_] occurs only as the prefix, the output name is the
    column name with the prefix stripped. *)
Lemma param_name_strip p :
  Str.startswith "param_" p = true ->
  Str.contains "param_" (strip_prefix p) = false ->
  param_name p = strip_prefix p.
Proof.
  intros Hpre Hc. unfold strip_prefix, Str.removeprefix in *. rewrite Hpre in *.
  unfold param_name, Str.replace.
  destruct p as [|c p]; [discriminate|].
  cbn [Str.replace_scan]. rewrite Hpre. cbn [String.append].
  rewrite replace_scan_skip. simpl String.length. cbn [Nat.sub].
  change (Str.drop 5 p) with (Str.drop 6 (String c p)).
  apply replace_scan_absent, Hc.
Qed.

Lemma strip_prefix_inj p q :
  Str.startswith "param_" p = true -> Str.startswith "param_" q = true ->
  strip_prefix p = strip_prefix q -> p = q.
Proof.
  intros Hp Hq. unfold strip_prefix, Str.removeprefix. rewrite Hp, Hq. intros E.
  rewrite (startswith_app _ _ Hp), (startswith_app _ _ Hq), E. reflexivity.
Qed.

(** Where [param_] occurs in the names only as the prefix, every parameter
    column has an output name of its own. *)
Lemma own_output_name_prefix_only df p :
  (forall q, q ∈ param_columns_of df -> Str.contains "param_" (strip_prefix q) = false) ->
  p ∈ param_columns_of df ->
  own_output_name df p.
Proof.
  intros Hinner Hp q Hq Heq.
  pose proof (proj2 (proj1 (elem_of_param_columns df p) Hp)) as Hpp.
  pose proof (proj2 (proj1 (elem_of_param_columns df q) Hq)) as Hpq.
  rewrite (param_name_strip q Hpq (Hinner q Hq)) in Heq.
  rewrite (param_name_strip p Hpp (Hinner p Hp)) in Heq.
  apply strip_prefix_inj; assumption.
Qed.

(** [str.replace] removes every occurrence of [param_], not the prefix
    alone. *)
Example param_name_prefix : param_name "param_lr" = "lr".
Proof. reflexivity. Qed.

Example param_name_inner : param_name "param_x_param_y" = "x_y".
Proof. reflexivity. Qed.

Example sorted_is_ordinal :
  Str.sorted ["opt"; "lr"; "Z"; "alpha"] = ["Z"; "alpha"; "lr"; "opt"].
Proof. reflexivity. Qed.

Lemma NoDup_param_columns df : NoDup (columns df) -> NoDup (param_columns_of df).
Proof.
  intros H. unfold param_columns_of. apply NoDup_ListNoDup, List.NoDup_filter, NoDup_ListNoDup, H.
Qed.

Lemma summarize_columns df t :
  summarize df = Ok t -> tcolumns t = ordered_columns_of (param_columns_of df).
Proof.
  intros H. apply summarize_Ok in H as (keys & rows & _ & _ & Hsel).
  apply getitem_columns_Ok in Hsel as (_ & Hc & _). exact Hc.
Qed.

(** Claim C5, as amended.  In a successful run on a table whose [param_]
    columns hold [param_] only as their prefix, the columns of the summary
    table are configuration, sample_size, iteration and then the names of
    the [param_] columns with the prefix stripped, in ascending order of
    strings; no label comes twice when the input labels are distinct and no
    stripped name is the name of a key column. *)
Theorem output_columns df t :
  summarize df = Ok t ->
  (forall p, p ∈ param_columns_of df -> Str.contains "param_" (strip_prefix p) = false) ->
  tcolumns t = key_columns ++ Str.sorted (strip_prefix <$> param_columns_of df) /\
  StronglySorted Str.le (Str.sorted (strip_prefix <$> param_columns_of df)) /\
  (NoDup (columns df) ->
   (forall p, p ∈ param_columns_of df -> strip_prefix p ∉ key_columns) ->
   NoDup (tcolumns t)).
Proof.
  intros Hsum Hinner.
  assert (Hnames : param_name <$> param_columns_of df = strip_prefix <$> param_columns_of df).
  { apply list_fmap_ext. intros j p Hp. apply list_elem_of_lookup_2 in Hp.
    apply param_name_strip; [|apply Hinner, Hp].
    apply elem_of_param_columns in Hp as [_ Hp]. exact Hp. }
  assert (Hcols : tcolumns t = key_columns ++ Str.sorted (strip_prefix <$> param_columns_of df)).
  { rewrite (summarize_columns _ _ Hsum). unfold ordered_columns_of. rewrite Hnames. reflexivity. }
  split; [exact Hcols|]. split; [apply StronglySorted_merge_sort; apply _|].
  intros Hnd Hfree. rewrite Hcols. apply NoDup_app. split; [|split].
  - unfold key_columns. apply (bool_decide_unpack _). vm_compute. exact I.
  - intros c Hc Hin. unfold Str.sorted in Hin. rewrite merge_sort_Permutation in Hin.
    apply list_elem_of_fmap in Hin as (p & -> & Hp). exact (Hfree p Hp Hc).
  - unfold Str.sorted. rewrite merge_sort_Permutation.
    apply NoDup_fmap_2_strong; [|apply NoDup_param_columns, Hnd].
    intros p q Hp Hq. apply strip_prefix_inj.
    + apply elem_of_param_columns in Hp as [_ Hp]. exact Hp.
    + apply elem_of_param_columns in Hq as [_ Hq]. exact Hq.
Qed.

Lemma output_columns_witness :
  tcolumns {| tcolumns := ["configuration"; "sample_size"; "iteration"; "lr"; "opt"];
              trows := [[VStr "cfgA"; VInt 100; VInt 1; VFloat lr_001; VStr "adam"];
                        [VStr "cfgB"; VInt 200; VInt 1; VFloat lr_002; VStr "adam"]] |}
  = key_columns ++ Str.sorted (strip_prefix <$> param_columns_of scenario) /\
  StronglySorted Str.le (Str.sorted (strip_prefix <$> param_columns_of scenario)) /\
  (NoDup (columns scenario) ->
   (forall p, p ∈ param_columns_of scenario -> strip_prefix p ∉ key_columns) ->
   NoDup (tcolumns
            {| tcolumns := ["configuration"; "sample_size"; "iteration"; "lr"; "opt"];
               trows := [[VStr "cfgA"; VInt 100; VInt 1; VFloat lr_001; VStr "adam"];
                         [VStr "cfgB"; VInt 200; VInt 1; VFloat lr_002; VStr "adam"]] |})).
Proof.
  apply (output_columns scenario).
  - reflexivity.
  - intros p Hp. apply list_elem_of_In in Hp. simpl in Hp.
    destruct Hp as [<-|[<-|[]]]; reflexivity.
Defined.

(** Claim C5 as stated fails: the column param_iteration takes the output
    name iteration, so that label comes twice in the summary table. *)
Lemma duplicate_label_counterexample :
  exists t,
    summarize shadowed_key = Ok t /\
    tcolumns t = ["configuration"; "sample_size"; "iteration"; "iteration"] /\
    ~ NoDup (tcolumns t).
Proof.
  eexists. split; [reflexivity|]. split; [reflexivity|].
  simpl. intros H. apply NoDup_cons in H as [_ H]. apply NoDup_cons in H as [_ H].
  apply NoDup_cons in H as [H _]. apply H. apply elem_of_cons. auto.
Qed.

(** ** The whole call *)

Lemma key_lookup df by_ :
  (exists ss, (result_mapM (getitem df) by_ = Ok ss) /\ (forall k, k ∈ by_ -> k ∈ columns df)) \/
  (exists k, k ∈ by_ /\ (k ∉ columns df) /\ result_mapM (getitem df) by_ = Raise (KeyError [k])).
Proof.
  induction by_ as [|c by_ IH].
  - left. exists []. split; [reflexivity | intros k H; inversion H].
  - cbn [result_mapM]. destruct (assoc c (series df)) as [s|] eqn:E.
    + assert (Hc : getitem df c = Ok s) by (unfold getitem; rewrite E; reflexivity).
      apply assoc_Some_elem in E. rewrite Hc.
      destruct IH as [(ss & -> & Hall)|(k & Hk & Hnot & ->)].
      * left. exists (s :: ss). split; [reflexivity|].
        intros k Hk. apply elem_of_cons in Hk as [->|Hk]; auto.
      * right. exists k. split; [apply elem_of_cons; auto | auto].
    + assert (Hc : getitem df c = Raise (KeyError [c])) by (unfold getitem; rewrite E; reflexivity).
      rewrite Hc.
      right. exists c. split; [apply elem_of_cons; auto|]. split; [|reflexivity].
      intros Hin. apply assoc_elem_Some in Hin as (s & Hs). congruence.
Qed.

Lemma append_inv_head (a x y : string) : (a ++ x = a ++ y)%string -> x = y.
Proof.
  induction a as [|c a IH]; intros H; [exact H|].
  change (String c (a ++ x)%string = String c (a ++ y)%string) in H.
  injection H as H. auto.
Qed.

Lemma path_join_inj a x y : path_join a x = path_join a y -> x = y.
Proof.
  unfold path_join. destruct a as [|c a]; [auto|].
  destruct (ends_with_slash (String c a)); intros H.
  - apply append_inv_head in H. exact H.
  - apply append_inv_head in H. apply (append_inv_head "/") in H. exact H.
Qed.

Lemma csv_html_paths_differ output_path : csv_path_of output_path <> html_path_of output_path.
Proof.
  unfold csv_path_of, html_path_of. intros H. apply path_join_inj in H. discriminate.
Qed.

(** Writing the HTML file leaves the CSV file as written. *)
Lemma written_csv (files : gmap string node) output_path csv html :
  <[html_path_of output_path := html]> (<[csv_path_of output_path := csv]> files)
    !! csv_path_of output_path = Some csv.
Proof.
  rewrite lookup_insert_ne by (apply not_eq_sym, csv_html_paths_differ).
  apply lookup_insert_eq.
Qed.

Lemma not_holds_frame t x : ~ holds (PyFrame t) (PyStr x).
Proof. intros H. inversion H. Qed.

Lemma run_bind_Ok {A B} (m : M A) (f : A -> M B) w b w' :
  run (m ≫= f) w = (Ok b, w') ->
  exists a w1, run m w = (Ok a, w1) /\ run (f a) w1 = (Ok b, w').
Proof.
  unfold mbind, M_bind. simpl. destruct (run m w) as [[a|e] w1]; [eauto | discriminate].
Qed.

Lemma lift_Ok {A} (r : result A) w a w' : run (lift r) w = (Ok a, w') -> r = Ok a /\ w' = w.
Proof. unfold lift. simpl. intros [= -> ->]. auto. Qed.

Lemma makedirs_Ok path w u w' :
  run (makedirs path) w = (Ok u, w') ->
  w' = {| fs := <[path := Directory]> (fs w); stdout := stdout w |}.
Proof.
  unfold makedirs. simpl. destruct path; [discriminate|].
  destruct (fs w !! _) as [[|?]|]; try discriminate; intros [= _ <-]; reflexivity.
Qed.

Lemma write_file_Ok path text w u w' :
  run (write_file path text) w = (Ok u, w') ->
  w' = {| fs := <[path := File text]> (fs w); stdout := stdout w |}.
Proof.
  unfold write_file. simpl.
  destruct (fs w !! path) as [[|?]|]; try discriminate; intros [= _ <-]; reflexivity.
Qed.

Lemma getitem_columns_no_rows labels :
  labels <> [] ->
  getitem_columns (DataFrame_of_records []) labels = Raise (KeyError labels).
Proof.
  intros Hne. unfold getitem_columns. simpl.
  rewrite filter_true by reflexivity.
  destruct labels; [congruence | reflexivity].
Qed.

Lemma summarize_no_group df :
  groupby df key_columns = Ok [] ->
  summarize df = Raise (KeyError (ordered_columns_of (param_columns_of df))).
Proof.
  intros H. unfold summarize. rewrite H. simpl.
  apply getitem_columns_no_rows. discriminate.
Qed.

Section ProgramFacts.

Variable parse_csv : string -> result DataFrame.
Variable render_csv render_html : SummaryTable -> string.

Lemma read_csv_Ok path w df w' :
  run (read_csv parse_csv path) w = (Ok df, w') ->
  exists text, fs w !! path = Some (File text) /\ parse_csv text = Ok df /\ w' = w.
Proof.
  unfold read_csv. simpl. destruct (fs w !! path) as [[|text]|]; try discriminate.
  intros [= H <-]. eauto.
Qed.

(** A call that fails while the summary is built leaves the files and the
    standard output as they were. *)
Lemma generate_summarize_raises w input_path output_path text df e :
  fs w !! input_path = Some (File text) ->
  parse_csv text = Ok df ->
  summarize df = Raise e ->
  run (generate_optimal_parameter_table parse_csv render_csv render_html input_path output_path) w = (Raise e, w).
Proof.
  intros Hfile Hparse Hsum.
  unfold generate_optimal_parameter_table, read_csv. simpl.
  rewrite Hfile, Hparse. simpl. rewrite Hsum. reflexivity.
Qed.

(** What a successful call did. *)
Lemma generate_Ok w input_path output_path ret w' :
  run (generate_optimal_parameter_table parse_csv render_csv render_html input_path output_path) w = (Ok ret, w') ->
  exists text df t,
    fs w !! input_path = Some (File text) /\
    parse_csv text = Ok df /\
    summarize df = Ok t /\
    ret = PyFrame t /\
    fs w' = <[html_path_of output_path := File (render_html t)]>
              (<[csv_path_of output_path := File (render_csv t)]>
                 (<[output_path := Directory]> (fs w))) /\
    stdout w' = stdout w ++ [saved_message (csv_path_of output_path) (html_path_of output_path)].
Proof.
  unfold generate_optimal_parameter_table. intros H.
  apply run_bind_Ok in H as (df & w1 & Hread & H).
  apply run_bind_Ok in H as (t & w2 & Hsum & H).
  apply run_bind_Ok in H as (u3 & w3 & Hdir & H).
  apply run_bind_Ok in H as (u4 & w4 & Hcsv & H).
  apply run_bind_Ok in H as (u5 & w5 & Hhtml & H).
  apply run_bind_Ok in H as (u6 & w6 & Hprint & H).
  apply read_csv_Ok in Hread as (text & Hfile & Hparse & ->).
  apply lift_Ok in Hsum as [Hsum ->].
  apply makedirs_Ok in Hdir as ->.
  apply write_file_Ok in Hcsv as ->.
  apply write_file_Ok in Hhtml as ->.
  unfold print in Hprint. simpl in Hprint. injection Hprint as _ <-.
  unfold mret, M_ret in H. simpl in H. injection H as <- <-.
  exists text, df, t. simpl. auto 10.
Qed.


(** Claim C10.  When the input has the three key columns and no row,
    [groupby] gives no group, the frame made of the empty list of rows has
    no column, and selecting the ordered columns raises a [KeyError] naming
    all of them; the call ends with that exception and has written no file
    and printed nothing. *)
Theorem no_rows_raises w input_path output_path text df :
  fs w !! input_path = Some (File text) ->
  parse_csv text = Ok df ->
  (forall k, k ∈ key_columns -> k ∈ columns df) ->
  nrows df = 0 ->
  groupby df key_columns = Ok [] /\
  tcolumns (DataFrame_of_records []) = [] /\
  run (generate_optimal_parameter_table parse_csv render_csv render_html input_path output_path) w
  = (Raise (KeyError (ordered_columns_of (param_columns_of df))), w).
Proof.
  intros Hfile Hparse Hall Hrows.
  assert (Hgroup : groupby df key_columns = Ok []).
  { destruct (key_lookup df key_columns) as [(ss & Hss & _)|(k & Hk & Hnot & _)].
    - unfold groupby, key_rows. rewrite Hss, Hrows. reflexivity.
    - exfalso. apply Hnot, Hall, Hk. }
  split; [exact Hgroup|]. split; [reflexivity|].
  apply (generate_summarize_raises _ _ _ text df); auto.
  apply summarize_no_group, Hgroup.
Qed.

(** Claim C7, as amended.  A successful call returns the summary table it
    built and nothing else: the returned object is that frame, it holds
    neither path; the CSV and the HTML rendering of the table are in the
    files at the two paths, and the two paths are in the message
    printed last. *)
Theorem returns_summary_table w input_path output_path ret w' :
  run (generate_optimal_parameter_table parse_csv render_csv render_html input_path output_path) w = (Ok ret, w') ->
  exists text df t,
    fs w !! input_path = Some (File text) /\
    parse_csv text = Ok df /\
    summarize df = Ok t /\
    ret = PyFrame t /\
    ~ holds ret (PyStr (csv_path_of output_path)) /\
    ~ holds ret (PyStr (html_path_of output_path)) /\
    fs w' !! csv_path_of output_path = Some (File (render_csv t)) /\
    fs w' !! html_path_of output_path = Some (File (render_html t)) /\
    last (stdout w')
    = Some (saved_message (csv_path_of output_path) (html_path_of output_path)).
Proof.
  intros H. apply generate_Ok in H as (text & df & t & Hfile & Hparse & Hsum & -> & Hfs & Hout).
  exists text, df, t. repeat split; auto using not_holds_frame.
  - rewrite Hfs. apply written_csv.
  - rewrite Hfs. apply lookup_insert_eq.
  - rewrite Hout. apply last_snoc.
Qed.

End ProgramFacts.


Lemma no_rows_raises_witness :
  groupby header_only key_columns = Ok [] /\
  tcolumns (DataFrame_of_records []) = [] /\
  run (generate_optimal_parameter_table example_parse example_csv example_html
         "results.csv" "out") (world_of "results.csv" header_only_text)
  = (Raise (KeyError (ordered_columns_of (param_columns_of header_only))),
     world_of "results.csv" header_only_text).
Proof.
  apply (no_rows_raises example_parse example_csv example_html
           (world_of "results.csv" header_only_text) "results.csv" "out"
           header_only_text header_only).
  - reflexivity.
  - reflexivity.
  - intros k Hk. apply list_elem_of_In in Hk. apply list_elem_of_In. simpl in *.
    intuition.
  - reflexivity.
Defined.

(** The round-trip scenario of the specification. *)
Example scenario_run : summarize scenario = Ok scenario_summary.
Proof. reflexivity. Qed.

Lemma returns_summary_table_witness :
  exists text df t,
    fs (world_of "results.csv" scenario_text) !! "results.csv" = Some (File text) /\
    example_parse text = Ok df /\
    summarize df = Ok t /\
    PyFrame scenario_summary = PyFrame t /\
    ~ holds (PyFrame scenario_summary) (PyStr (csv_path_of "out")) /\
    ~ holds (PyFrame scenario_summary) (PyStr (html_path_of "out")) /\
    fs (snd (run (generate_optimal_parameter_table example_parse example_csv example_html
                    "results.csv" "out") (world_of "results.csv" scenario_text)))
      !! csv_path_of "out" = Some (File (example_csv t)) /\
    fs (snd (run (generate_optimal_parameter_table example_parse example_csv example_html
                    "results.csv" "out") (world_of "results.csv" scenario_text)))
      !! html_path_of "out" = Some (File (example_html t)) /\
    last (stdout (snd (run (generate_optimal_parameter_table example_parse example_csv
                              example_html "results.csv" "out")
                         (world_of "results.csv" scenario_text))))
    = Some (saved_message (csv_path_of "out") (html_path_of "out")).
Proof.
  apply (returns_summary_table example_parse example_csv example_html
           (world_of "results.csv" scenario_text) "results.csv" "out").
  vm_compute. reflexivity.
Defined.

(** Claim C7 as stated fails: the call on the round-trip scenario returns
    the summary frame, and that object holds neither path. *)
Lemma returns_paths_counterexample :
  fst (run (generate_optimal_parameter_table example_parse example_csv example_html
              "results.csv" "out") (world_of "results.csv" scenario_text))
  = Ok (PyFrame scenario_summary) /\
  ~ holds (PyFrame scenario_summary) (PyStr "out/optimal_parameters_summary_table.csv") /\
  ~ holds (PyFrame scenario_summary) (PyStr "out/optimal_parameters_summary_table.html").
Proof.
  split; [vm_compute; reflexivity|]. split; apply not_holds_frame.
Qed.

(** * Further properties of the function *)

(** ** The rows of the summary table *)

Lemma fmap_row_cell (f : string -> value) (cols labels : list string) :
  (forall c, c ∈ labels -> c ∈ cols) ->
  (fun c => default NaN (row_cell cols (f <$> cols) c)) <$> labels = f <$> labels.
Proof.
  intros Hin. apply list_fmap_ext. intros j c Hc. apply list_elem_of_lookup_2 in Hc.
  rewrite (row_cell_fmap _ _ _ (Hin c Hc)). reflexivity.
Qed.

(** The rows of the summary table, read off the dicts of the groups. *)
Lemma summarize_rows df t :
  summarize df = Ok t ->
  exists keys rows,
    key_rows df key_columns = Ok keys /\
    result_mapM (summary_row (param_columns_of df))
      ((fun u => (u, DataFrame_take (group_mask keys u) df)) <$> group_keys keys) = Ok rows /\
    tcolumns t = ordered_columns_of (param_columns_of df) /\
    trows t = (fun d => (fun c => default NaN (dict_get c d))
                          <$> ordered_columns_of (param_columns_of df)) <$> rows.
Proof.
  intros H. apply summarize_Ok in H as (keys & rows & Hkeys & Hrows & Hsel).
  exists keys, rows. split; [exact Hkeys|]. split; [exact Hrows|].
  apply getitem_columns_Ok in Hsel as (Hin & Hcols & Htrows).
  split; [exact Hcols|]. rewrite Htrows.
  unfold DataFrame_of_records in *. cbn [trows tcolumns] in *.
  rewrite <- list_fmap_compose. apply list_fmap_ext. intros _ d _.
  apply (fmap_row_cell (fun c => default NaN (dict_get c d))), Hin.
Qed.

Lemma ordered_columns_length pcs : length (ordered_columns_of pcs) = 3 + length pcs.
Proof.
  unfold ordered_columns_of, Str.sorted. rewrite length_app.
  rewrite merge_sort_Permutation, length_fmap. reflexivity.
Qed.

(** Property X2.  The summary table is rectangular: three key cells and one cell per
    [param_] column in every row, under as many labels. *)
Theorem summary_table_width df t :
  summarize df = Ok t ->
  length (tcolumns t) = 3 + length (param_columns_of df) /\
  Forall (fun row => length row = 3 + length (param_columns_of df)) (trows t).
Proof.
  intros H. apply summarize_rows in H as (keys & rows & _ & _ & -> & ->).
  split; [apply ordered_columns_length|].
  apply Forall_fmap, Forall_forall. intros d _. simpl.
  rewrite length_fmap. apply ordered_columns_length.
Qed.

Lemma summary_table_width_witness :
  length (tcolumns scenario_summary) = 3 + length (param_columns_of scenario) /\
  Forall (fun row => length row = 3 + length (param_columns_of scenario))
    (trows scenario_summary).
Proof. apply (summary_table_width scenario). reflexivity. Defined.

(** The first three cells of the row of a group are its key, when no
    parameter column takes the name of a key column. *)
Lemma summary_row_keys pcs u g d :
  summary_row pcs (u, g) = Ok d ->
  (forall p, p ∈ pcs -> param_name p ∉ key_columns) ->
  (fun c => default NaN (dict_get c d)) <$> key_columns = u.
Proof.
  intros Hrow Hfree. apply summary_row_Ok in Hrow as (c1 & c2 & c3 & -> & Hfold).
  assert (Hkey : forall c, c ∈ key_columns ->
            dict_get c d
            = dict_get c [("configuration", c1); ("sample_size", c2); ("iteration", c3)]).
  { intros c Hc. apply (foldM_add_param_other _ _ _ _ c Hfold).
    intros Hin. apply list_elem_of_fmap in Hin as (p & -> & Hp). exact (Hfree p Hp Hc). }
  unfold key_columns in *. simpl.
  rewrite !Hkey by set_solver. reflexivity.
Qed.

Lemma result_mapM_Forall2 {A B} (f : A -> result B) l ys :
  result_mapM f l = Ok ys -> Forall2 (fun x y => f x = Ok y) l ys.
Proof.
  revert ys; induction l as [|a l IH]; intros ys; simpl.
  - intros [= <-]. constructor.
  - intros H. apply result_bind_Ok in H as (b & Hb & H).
    apply result_bind_Ok in H as (bs & Hbs & H). injection H as <-.
    constructor; auto.
Qed.

Lemma take_app_length' {A} (l1 l2 : list A) n : n = length l1 -> take n (l1 ++ l2) = l1.
Proof. intros ->. apply take_app_length. Qed.

(** The key cells of the rows of the summary table are the keys of the
    groups, in the order of the groups. *)
Lemma summary_rows_keys df t keys :
  summarize df = Ok t ->
  key_rows df key_columns = Ok keys ->
  (forall p, p ∈ param_columns_of df -> param_name p ∉ key_columns) ->
  take 3 <$> trows t = group_keys keys.
Proof.
  intros Hsum Hkeys Hfree.
  apply summarize_rows in Hsum as (keys' & rows & Hkeys' & Hrows & _ & ->).
  rewrite Hkeys in Hkeys'. injection Hkeys' as <-.
  apply result_mapM_Forall2 in Hrows.
  rewrite <- list_fmap_compose.
  transitivity (fst <$> ((fun u => (u, DataFrame_take (group_mask keys u) df))
                           <$> group_keys keys)).
  2: { rewrite <- list_fmap_compose. apply list_fmap_id. }
  induction Hrows as [|[u g] d gs rows Hrow _ IH]; [reflexivity|].
  rewrite !fmap_cons. f_equal; [|exact IH].
  unfold compose, ordered_columns_of. rewrite fmap_app.
  rewrite take_app_length' by (rewrite length_fmap; reflexivity).
  apply (summary_row_keys _ _ _ _ Hrow Hfree).
Qed.

(** ** The order of the rows *)

Lemma SFcompare_antisym a b :
  SFcompare b a = option_map CompOpp (SFcompare a b).
Proof.
  unfold SFcompare.
  destruct a as [s1|s1| |s1 m1 e1], b as [s2|s2| |s2 m2 e2];
    try (destruct s1); try (destruct s2); try reflexivity; simpl;
    rewrite (Z.compare_antisym e1 e2);
    destruct (Z.compare e1 e2); simpl; try reflexivity;
    rewrite (eq_sym (Pos.compare_cont_antisym m1 m2 Eq)
             : Pos.compare_cont Eq m2 m1 = CompOpp (Pos.compare_cont Eq m1 m2));
    rewrite ?CompOpp_involutive; reflexivity.
Qed.

Lemma value_compare_antisym v1 v2 :
  value_compare v2 v1 = CompOpp (value_compare v1 v2).
Proof.
  destruct v1 as [a|a|a|a], v2 as [b|b|b|b]; simpl; try reflexivity.
  - apply Z.compare_antisym.
  - rewrite SFcompare_antisym. destruct (SFcompare a b); reflexivity.
  - destruct a, b; reflexivity.
  - apply String.compare_antisym.
Qed.

Lemma key_compare_antisym k1 k2 :
  key_compare k2 k1 = CompOpp (key_compare k1 k2).
Proof.
  revert k2; induction k1 as [|v1 k1 IH]; intros [|v2 k2]; simpl; try reflexivity.
  rewrite value_compare_antisym.
  destruct (value_compare v1 v2); simpl; auto.
Qed.

#[global] Instance key_le_total : Total key_le.
Proof.
  intros k1 k2. unfold key_le. rewrite (key_compare_antisym k1 k2).
  destruct (key_compare k1 k2); simpl; [left | left | right]; discriminate.
Qed.

(** Property X3.  The rows of the summary table come in ascending order of their keys
    (the order [groupby] sorts its groups in), not in the order the keys
    are met in the input. *)
Theorem rows_sorted_by_key df t keys :
  summarize df = Ok t ->
  key_rows df key_columns = Ok keys ->
  (forall p, p ∈ param_columns_of df -> param_name p ∉ key_columns) ->
  take 3 <$> trows t = group_keys keys /\
  Sorted key_le (take 3 <$> trows t).
Proof.
  intros Hsum Hkeys Hfree.
  rewrite (summary_rows_keys _ _ _ Hsum Hkeys Hfree).
  split; [reflexivity|]. apply Sorted_merge_sort. apply _.
Qed.

Lemma rows_sorted_by_key_witness :
  take 3 <$> trows scenario_summary
  = group_keys [[VStr "cfgB"; VInt 200; VInt 1]; [VStr "cfgA"; VInt 100; VInt 1];
                [VStr "cfgA"; VInt 100; VInt 1]] /\
  Sorted key_le (take 3 <$> trows scenario_summary).
Proof.
  apply (rows_sorted_by_key scenario_scored).
  - reflexivity.
  - reflexivity.
  - intros p Hp Hk. apply list_elem_of_In in Hp. simpl in Hp.
    destruct Hp as [<-|[<-|[]]]; apply list_elem_of_In in Hk; simpl in Hk;
      intuition discriminate.
Defined.

(** Property X4.  Without [param_] columns the summary table is the table of the
    distinct complete keys: the three key columns, one row per group. *)
Theorem no_param_columns_table df t keys :
  summarize df = Ok t ->
  key_rows df key_columns = Ok keys ->
  param_columns_of df = [] ->
  tcolumns t = key_columns /\ trows t = group_keys keys.
Proof.
  intros Hsum Hkeys Hnone.
  assert (Hfree : forall p, p ∈ param_columns_of df -> param_name p ∉ key_columns).
  { rewrite Hnone. intros p Hp. inversion Hp. }
  pose proof (summary_rows_keys _ _ _ Hsum Hkeys Hfree) as Hrows.
  apply summarize_rows in Hsum as (_ & rows & _ & _ & Hcols & Htrows).
  rewrite Hnone in *. split; [exact Hcols|].
  rewrite <- Hrows, Htrows, <- list_fmap_compose.
  apply list_fmap_ext. intros _ d _. reflexivity.
Qed.

Lemma no_param_columns_table_witness :
  tcolumns {| tcolumns := key_columns;
              trows := [[VStr "cfgA"; VInt 100; VInt 1]; [VStr "cfgB"; VInt 200; VInt 1]] |}
  = key_columns /\
  trows {| tcolumns := key_columns;
           trows := [[VStr "cfgA"; VInt 100; VInt 1]; [VStr "cfgB"; VInt 200; VInt 1]] |}
  = group_keys [[VStr "cfgB"; VInt 200; VInt 1]; [VStr "cfgA"; VInt 100; VInt 1];
                [VStr "cfgB"; VInt 200; VInt 1]].
Proof. apply (no_param_columns_table keys_only); reflexivity. Defined.

(** ** When the summary is built *)

















(** ** The branch is chosen by the dtype of the column *)

#[global] Instance bool_le_trans : Transitive bool_le.
Proof. intros [] [] []; simpl; auto. Qed.

#[global] Instance bool_le_total : Total bool_le.
Proof. intros [] []; simpl; auto. Qed.





(** The tie: in the first group of [bool_object_param] true and false
    come once each, and false is kept. *)
Example bool_object_tie :
  exists t,
    summarize bool_object_param = Ok t /\
    table_cell t 0 "bootstrap" = Some (VBool false).
Proof. eexists. split; reflexivity. Qed.

(** ** Two parameter columns with one output name *)

Lemma result_foldM_app {A B} (f : B -> A -> result B) l1 l2 b :
  result_foldM f (l1 ++ l2) b = result_foldM f l1 b ≫= result_foldM f l2.
Proof.
  revert b; induction l1 as [|a l1 IH]; intros b; simpl; [reflexivity|].
  destruct (f b a) as [b'|e]; simpl; [apply IH | reflexivity].
Qed.

(** The entry of a name is the one written by the last column that has
    the name. *)
Lemma foldM_add_param_last g before p after row d :
  result_foldM (add_param g) (before ++ p :: after) row = Ok d ->
  (forall q, q ∈ after -> param_name q <> param_name p) ->
  exists values v,
    getitem g p = Ok values /\ reduce_param values = Ok v /\
    dict_get (param_name p) d = Some v.
Proof.
  intros Hfold Hafter. rewrite result_foldM_app in Hfold.
  apply result_bind_Ok in Hfold as (row1 & _ & Hfold). cbn [result_foldM] in Hfold.
  apply result_bind_Ok in Hfold as (row2 & Hadd & Hfold).
  apply add_param_Ok in Hadd as (values & v & Hg & Hv & ->).
  exists values, v. split; [exact Hg|]. split; [exact Hv|].
  rewrite (foldM_add_param_other _ _ _ _ (param_name p) Hfold).
  - apply dict_get_set_eq.
  - intros Hin. apply list_elem_of_fmap in Hin as (q & Heq & Hq).
    apply (Hafter q Hq). symmetry. exact Heq.
Qed.

(** Property X14.  Parameter columns with one output name share one entry
    of the row of a group, written by each in header order: in a
    successful run the summary table shows, under that name, the value of
    the last of them; for a column of numeric dtype, the cell of the first
    row of the group in that last column. *)
Theorem last_column_wins df t keys i u p s :
  summarize df = Ok t ->
  key_rows df key_columns = Ok keys ->
  group_keys keys !! i = Some u ->
  last_with_output_name df p ->
  assoc p (series df) = Some s ->
  is_numeric_dtype s = true ->
  exists r v,
    first_row keys u r /\ cells s !! r = Some v /\
    table_cell t i (param_name p) = Some v.
Proof.
  intros Hsum Hkeys Hu (before & after & Hpcs & Hafter) Hs Hnum.
  apply summarize_Ok in Hsum as (keys' & rows & Hkeys' & Hrows & Hsel).
  rewrite Hkeys in Hkeys'. injection Hkeys' as <-.
  assert (Hp : p ∈ param_columns_of df).
  { rewrite Hpcs. apply elem_of_app. right. apply elem_of_cons. auto. }
  destruct (result_mapM_lookup _ _ _ i (u, DataFrame_take (group_mask keys u) df) Hrows)
    as (d & Hd & Hrow).
  { rewrite list_lookup_fmap, Hu. reflexivity. }
  apply summary_row_Ok in Hrow as (c1 & c2 & c3 & _ & Hfold).
  rewrite Hpcs in Hfold.
  destruct (foldM_add_param_last _ _ _ _ _ _ Hfold Hafter) as (values & v & Hg & Hv & Hget).
  rewrite (getitem_take _ _ _ _ Hs) in Hg. injection Hg as <-.
  destruct (reduce_param_first_row _ _ _ _ _ Hu Hnum Hv) as (r & Hfirst & Hcell).
  exists r, v. split; [exact Hfirst|]. split; [exact Hcell|].
  rewrite (table_cell_dict _ _ _ _ _ _ Hsel Hd (elem_of_ordered_param _ _ Hp)).
  rewrite Hget. reflexivity.
Qed.

Lemma last_column_wins_witness :
  exists r v,
    first_row (replicate 2 [VStr "cfgA"; VInt 100; VInt 1]) [VStr "cfgA"; VInt 100; VInt 1] r /\
    cells (Int64 [2; 2]%Z) !! r = Some v /\
    table_cell
      {| tcolumns := ["configuration"; "sample_size"; "iteration"; "x"; "x"];
         trows := [[VStr "cfgA"; VInt 100; VInt 1; VInt 2; VInt 2]] |}
      0 (param_name "param_param_x") = Some v.
Proof.
  apply (last_column_wins two_named_x _ _ 0 _ "param_param_x").
  - reflexivity.
  - reflexivity.
  - reflexivity.
  - exists ["param_x"], []. split; [reflexivity | intros q Hq; inversion Hq].
  - reflexivity.
  - reflexivity.
Defined.

(** Both columns named x hold 2, the value of [param_param_x]; the value 1
    of [param_x] is not in the table. *)
Example two_named_x_summary :
  summarize two_named_x
  = Ok {| tcolumns := ["configuration"; "sample_size"; "iteration"; "x"; "x"];
          trows := [[VStr "cfgA"; VInt 100; VInt 1; VInt 2; VInt 2]] |}.
Proof. reflexivity. Qed.

(** ** Columns the function does not look at *)

Lemma assoc_filter_label {A} (P : string -> bool) c (l : list (string * A)) :
  P c = true ->
  assoc c (List.filter (fun cs => P (fst cs)) l) = assoc c l.
Proof.
  intros Hc. induction l as [|[c' x] l IH]; simpl; [reflexivity|].
  destruct (P c') eqn:E; simpl.
  - destruct (String.eqb c' c); [reflexivity | exact IH].
  - destruct (String.eqb c' c) eqn:E'; [|exact IH].
    apply String.eqb_eq in E' as ->. congruence.
Qed.

Lemma getitem_used_columns df c :
  used_label c = true -> getitem (used_columns df) c = getitem df c.
Proof.
  intros Hc. unfold getitem, used_columns. simpl.
  rewrite (assoc_filter_label used_label _ _ Hc). reflexivity.
Qed.

Lemma used_label_param p : Str.startswith "param_" p = true -> used_label p = true.
Proof. intros H. unfold used_label. rewrite H. apply orb_true_r. Qed.

Lemma filter_labels_filter {A} (P Q : string -> bool) (l : list (string * A)) :
  (forall c, Q c = true -> P c = true) ->
  List.filter Q (fst <$> List.filter (fun cs => P (fst cs)) l) = List.filter Q (fst <$> l).
Proof.
  intros HQP. induction l as [|[c x] l IH]; [reflexivity|].
  cbn [List.filter fmap list_fmap fst]. destruct (Q c) eqn:E.
  - rewrite (HQP c E). cbn [List.filter fmap list_fmap fst]. rewrite E. f_equal. exact IH.
  - destruct (P c); cbn [List.filter fmap list_fmap fst]; rewrite ?E; exact IH.
Qed.

Lemma param_columns_used df : param_columns_of (used_columns df) = param_columns_of df.
Proof.
  unfold param_columns_of, columns, used_columns. cbn [series].
  apply filter_labels_filter, used_label_param.
Qed.

Lemma result_mapM_ext_in {A B} (f g : A -> result B) l :
  (forall x, x ∈ l -> f x = g x) -> result_mapM f l = result_mapM g l.
Proof.
  induction l as [|a l IH]; intros H; [reflexivity|]. cbn [result_mapM].
  rewrite (H a) by (apply elem_of_cons; auto).
  rewrite IH; [reflexivity|]. intros x Hx. apply H, elem_of_cons. auto.
Qed.

Lemma result_foldM_ext_in {A B} (f g : B -> A -> result B) l b :
  (forall b' x, x ∈ l -> f b' x = g b' x) -> result_foldM f l b = result_foldM g l b.
Proof.
  revert b; induction l as [|a l IH]; intros b H; [reflexivity|]. cbn [result_foldM].
  rewrite (H b a) by (apply elem_of_cons; auto).
  destruct (g b a) as [b'|e]; simpl; [|reflexivity].
  apply IH. intros b'' x Hx. apply H, elem_of_cons. auto.
Qed.

Lemma key_rows_used df : key_rows (used_columns df) key_columns = key_rows df key_columns.
Proof.
  unfold key_rows.
  rewrite (result_mapM_ext_in (getitem (used_columns df)) (getitem df)); [reflexivity|].
  intros c Hc. apply getitem_used_columns. unfold used_label.
  rewrite (proj2 (mem_true c key_columns) Hc). reflexivity.
Qed.

Lemma fmap_filter_label {A B} (P : string -> bool) (f : A -> B) (l : list (string * A)) :
  prod_map id f <$> List.filter (fun cs => P (fst cs)) l
  = List.filter (fun cs => P (fst cs)) (prod_map id f <$> l).
Proof.
  induction l as [|[c x] l IH]; [reflexivity|].
  cbn [List.filter fmap list_fmap fst prod_map id]. destruct (P c).
  - cbn [fmap list_fmap]. f_equal. exact IH.
  - exact IH.
Qed.

Lemma DataFrame_take_used mask df :
  DataFrame_take mask (used_columns df) = used_columns (DataFrame_take mask df).
Proof.
  unfold DataFrame_take, used_columns. cbn [nrows series]. f_equal.
  apply fmap_filter_label.
Qed.

Lemma summary_row_used pcs u g :
  (forall p, p ∈ pcs -> Str.startswith "param_" p = true) ->
  summary_row pcs (u, used_columns g) = summary_row pcs (u, g).
Proof.
  intros Hpre. unfold summary_row. cbn [fst snd].
  destruct u as [|c1 [|c2 [|c3 [|]]]]; try reflexivity.
  apply result_foldM_ext_in. intros row p Hp. unfold add_param.
  rewrite (getitem_used_columns _ _ (used_label_param _ (Hpre p Hp))). reflexivity.
Qed.

(** Property X7.  Columns that are neither key columns nor [param_] columns do not
    count: the run on a frame is the run on the frame without them. *)
Theorem other_columns_ignored df : summarize (used_columns df) = summarize df.
Proof.
  unfold summarize, groupby. rewrite param_columns_used, key_rows_used.
  destruct (key_rows df key_columns) as [keys|e]; [|reflexivity].
  change (Ok keys ≫= ?f) with (f keys). cbv beta.
  assert (E : result_mapM (summary_row (param_columns_of df))
                ((fun u => (u, DataFrame_take (group_mask keys u) (used_columns df)))
                   <$> group_keys keys)
              = result_mapM (summary_row (param_columns_of df))
                  ((fun u => (u, DataFrame_take (group_mask keys u) df)) <$> group_keys keys)).
  { induction (group_keys keys) as [|u us IH]; [reflexivity|].
    rewrite !fmap_cons. cbn [result_mapM]. rewrite IH.
    rewrite DataFrame_take_used, summary_row_used; [reflexivity|].
    intros p Hp. apply elem_of_param_columns in Hp as [_ Hp]. exact Hp. }
  change (Ok ?x ≫= ?f) with (f x). cbv beta.
  rewrite E. reflexivity.
Qed.

(** The score column of this frame leaves the summary as it is. *)
Example scored_summary :
  summarize scenario_scored = Ok scenario_summary /\
  columns (used_columns scenario_scored)
  = ["configuration"; "sample_size"; "iteration"; "param_lr"; "param_opt"].
Proof. split; reflexivity. Qed.

(** ** The order of the rows inside a group *)

Lemma string_eqb_cnt_Permutation (x : string) l1 l2 :
  l1 ≡ₚ l2 -> cnt String.eqb x l1 = cnt String.eqb x l2.
Proof. intros H. unfold cnt. apply filter_length_Permutation, H. Qed.

Lemma Str_le_antisym s1 s2 : Str.le s1 s2 -> Str.le s2 s1 -> s1 = s2.
Proof. apply String.leb_antisym. Qed.

Lemma modes_head_Permutation l1 l2 :
  l1 ≡ₚ l2 ->
  head (modes String.eqb Str.le l1) = head (modes String.eqb Str.le l2).
Proof.
  intros Hp.
  destruct l1 as [|a l1].
  { apply Permutation_nil_l in Hp as ->. reflexivity. }
  assert (Hne2 : l2 <> []).
  { intros ->. apply Permutation_nil_r in Hp. discriminate. }
  pose proof (modes_nonempty String.eqb Str.le String.eqb_eq (a :: l1)) as H1.
  pose proof (modes_nonempty String.eqb Str.le String.eqb_eq l2 Hne2) as H2.
  destruct (modes String.eqb Str.le (a :: l1)) as [|m1 r1] eqn:E1; [exfalso; apply H1; congruence|].
  destruct (modes String.eqb Str.le l2) as [|m2 r2] eqn:E2; [congruence|].
  simpl. f_equal.
  assert (Hh1 : head (modes String.eqb Str.le (a :: l1)) = Some m1) by (rewrite E1; reflexivity).
  assert (Hh2 : head (modes String.eqb Str.le l2) = Some m2) by (rewrite E2; reflexivity).
  apply (modes_head String.eqb Str.le String.eqb_eq) in Hh1 as (_ & Hmax1 & Hleast1).
  apply (modes_head String.eqb Str.le String.eqb_eq) in Hh2 as (_ & Hmax2 & Hleast2).
  assert (Heq : cnt String.eqb m2 (a :: l1) = cnt String.eqb m1 (a :: l1)).
  { apply Nat.le_antisymm; [apply Hmax1|].
    rewrite !(string_eqb_cnt_Permutation _ _ _ Hp). apply Hmax2. }
  apply Str_le_antisym.
  - apply Hleast1. exact Heq.
  - apply Hleast2. rewrite <- !(string_eqb_cnt_Permutation _ _ _ Hp). symmetry. exact Heq.
Qed.

Lemma omap_id_Permutation {A} (l1 l2 : list (option A)) :
  l1 ≡ₚ l2 -> omap id l1 ≡ₚ omap id l2.
Proof.
  induction 1 as [|x l1 l2 _ IH|x y l|l1 l2 l3 _ IH1 _ IH2]; simpl.
  - reflexivity.
  - destruct x; simpl; [constructor|]; exact IH.
  - destruct x, y; simpl; try reflexivity. apply perm_swap.
  - etransitivity; eauto.
Qed.

(** Property X8.  For a column of strings the value kept for a group does not depend on
    the order of the rows of the group (the value kept for a numeric
    column, the first cell, does). *)
Theorem string_value_order_independent d1 d2 :
  d1 ≡ₚ d2 -> reduce_param (ObjectStr d1) = reduce_param (ObjectStr d2).
Proof.
  intros Hp. unfold reduce_param, Series_empty, iloc0. simpl.
  pose proof (modes_head_Permutation _ _ (omap_id_Permutation _ _ Hp)) as H.
  destruct (modes String.eqb Str.le (omap id d1)) as [|m1 r1];
    destruct (modes String.eqb Str.le (omap id d2)) as [|m2 r2];
    simpl in *; congruence.
Qed.

Lemma string_value_order_independent_witness :
  reduce_param (ObjectStr [Some "sgd"; None; Some "adam"])
  = reduce_param (ObjectStr [Some "adam"; Some "sgd"; None]).
Proof.
  apply string_value_order_independent.
  etransitivity; [apply perm_skip, perm_swap | apply perm_swap].
Defined.

(** The first cell of a numeric column does depend on the order. *)
Example numeric_value_order_dependent :
  reduce_param (Int64 [3; 7]%Z) = Ok (VInt 3) /\ reduce_param (Int64 [7; 3]%Z) = Ok (VInt 7).
Proof. split; reflexivity. Qed.
(** ** Files and messages of a call *)

Lemma string_length_app (a b : string) :
  String.length (a ++ b)%string = String.length a + String.length b.
Proof.
  induction a as [|c a IH]; [reflexivity|].
  change (S (String.length (a ++ b)%string) = S (String.length a + String.length b)).
  f_equal. exact IH.
Qed.

Lemma path_join_longer a b : b <> "" -> String.length a < String.length (path_join a b).
Proof.
  intros Hb. assert (0 < String.length b) by (destruct b; [congruence | simpl; lia]).
  unfold path_join. destruct a as [|c a]; [simpl; lia|].
  destruct (ends_with_slash (String c a)); rewrite ?string_length_app; simpl; lia.
Qed.

Lemma path_join_ne a b : b <> "" -> path_join a b <> a.
Proof.
  intros Hb E. pose proof (path_join_longer a b Hb) as H. rewrite E in H. lia.
Qed.

Lemma csv_path_ne output_path : csv_path_of output_path <> output_path.
Proof. apply path_join_ne. discriminate. Qed.

Lemma html_path_ne output_path : html_path_of output_path <> output_path.
Proof. apply path_join_ne. discriminate. Qed.

Lemma run_bind_Ok_eq {A B} (m : M A) (f : A -> M B) w a w1 :
  run m w = (Ok a, w1) -> run (m ≫= f) w = run (f a) w1.
Proof. intros H. unfold mbind, M_bind. simpl. rewrite H. reflexivity. Qed.

Lemma run_bind_Raise_eq {A B} (m : M A) (f : A -> M B) w e w1 :
  run m w = (Raise e, w1) -> run (m ≫= f) w = (Raise e, w1).
Proof. intros H. unfold mbind, M_bind. simpl. rewrite H. reflexivity. Qed.

Lemma run_bind_Raise {A B} (m : M A) (f : A -> M B) w e w' :
  run (m ≫= f) w = (Raise e, w') ->
  run m w = (Raise e, w') \/
  exists a w1, run m w = (Ok a, w1) /\ run (f a) w1 = (Raise e, w').
Proof.
  unfold mbind, M_bind. simpl. destruct (run m w) as [[a|e0] w1]; [eauto|].
  intros [= -> ->]. auto.
Qed.

(** [makedirs] goes through exactly when the path is not empty and no
    file sits there. *)
Lemma makedirs_run path w :
  run (makedirs path) w
  = if negb (String.eqb path "") && negb (is_file (fs w !! path))
    then (Ok tt, {| fs := <[path := Directory]> (fs w); stdout := stdout w |})
    else (Raise (if String.eqb path "" then FileNotFoundError path
                 else FileExistsError path), w).
Proof.
  unfold makedirs. simpl. destruct path as [|c p]; [reflexivity|].
  destruct (fs w !! String c p) as [[|text]|]; reflexivity.
Qed.

Lemma write_file_run path text w :
  run (write_file path text) w
  = if is_directory (fs w !! path)
    then (Raise (IsADirectoryError path), w)
    else (Ok tt, {| fs := <[path := File text]> (fs w); stdout := stdout w |}).
Proof.
  unfold write_file. simpl. destruct (fs w !! path) as [[|x]|]; reflexivity.
Qed.

Section CallFacts.

Variable parse_csv : string -> result DataFrame.
Variable render_csv render_html : SummaryTable -> string.

Lemma read_csv_run path w :
  run (read_csv parse_csv path) w
  = (match fs w !! path with
     | Some (File text) => parse_csv text
     | Some Directory => Raise (IsADirectoryError path)
     | None => Raise (FileNotFoundError path)
     end, w).
Proof. unfold read_csv. simpl. destruct (fs w !! path) as [[|text]|]; reflexivity. Qed.

(** The steps after the summary is built (lines 47-58). *)
Lemma generate_after_summary w input_path output_path text df t :
  fs w !! input_path = Some (File text) ->
  parse_csv text = Ok df ->
  summarize df = Ok t ->
  run (generate_optimal_parameter_table parse_csv render_csv render_html
         input_path output_path) w
  = if negb (String.eqb output_path "") && negb (is_file (fs w !! output_path))
    then
      if is_directory (fs w !! csv_path_of output_path)
      then (Raise (IsADirectoryError (csv_path_of output_path)),
            {| fs := <[output_path := Directory]> (fs w); stdout := stdout w |})
      else
        if is_directory (fs w !! html_path_of output_path)
        then (Raise (IsADirectoryError (html_path_of output_path)),
              {| fs := <[csv_path_of output_path := File (render_csv t)]>
                         (<[output_path := Directory]> (fs w));
                 stdout := stdout w |})
        else (Ok (PyFrame t),
              {| fs := <[html_path_of output_path := File (render_html t)]>
                         (<[csv_path_of output_path := File (render_csv t)]>
                            (<[output_path := Directory]> (fs w)));
                 stdout := stdout w
                           ++ [saved_message (csv_path_of output_path)
                                 (html_path_of output_path)] |})
    else (Raise (if String.eqb output_path "" then FileNotFoundError output_path
                 else FileExistsError output_path), w).
Proof.
  intros Hfile Hparse Hsum. unfold generate_optimal_parameter_table.
  rewrite (run_bind_Ok_eq _ _ w df w) by (rewrite read_csv_run, Hfile, Hparse; reflexivity).
  rewrite (run_bind_Ok_eq _ _ w t w) by (unfold lift; simpl; rewrite Hsum; reflexivity).
  pose proof (makedirs_run output_path w) as Hdir.
  destruct (negb (String.eqb output_path "") && negb (is_file (fs w !! output_path))).
  2: { apply run_bind_Raise_eq, Hdir. }
  rewrite (run_bind_Ok_eq _ _ _ _ _ Hdir). unfold to_csv, to_html.
  match goal with |- run (write_file ?p ?x ≫= _) ?w1 = _ =>
    pose proof (write_file_run p x w1) as Hcsv end.
  cbn [fs stdout] in Hcsv.
  rewrite lookup_insert_ne in Hcsv by (apply not_eq_sym, csv_path_ne).
  destruct (is_directory (fs w !! csv_path_of output_path)).
  { apply run_bind_Raise_eq, Hcsv. }
  rewrite (run_bind_Ok_eq _ _ _ _ _ Hcsv).
  match goal with |- run (write_file ?p ?x ≫= _) ?w1 = _ =>
    pose proof (write_file_run p x w1) as Hhtml end.
  cbn [fs stdout] in Hhtml.
  rewrite lookup_insert_ne in Hhtml by apply csv_html_paths_differ.
  rewrite lookup_insert_ne in Hhtml by (apply not_eq_sym, html_path_ne).
  destruct (is_directory (fs w !! html_path_of output_path)).
  { apply run_bind_Raise_eq, Hhtml. }
  rewrite (run_bind_Ok_eq _ _ _ _ _ Hhtml). reflexivity.
Qed.

(** Property X11.  A call that ends with an exception has printed
    nothing: the message is the last step, after both files are
    written. *)
Theorem failure_prints_nothing w input_path output_path e w' :
  run (generate_optimal_parameter_table parse_csv render_csv render_html
         input_path output_path) w = (Raise e, w') ->
  stdout w' = stdout w.
Proof.
  intros H.
  destruct (fs w !! input_path) as [[|text]|] eqn:Hfile.
  1,3: unfold generate_optimal_parameter_table in H;
       rewrite (run_bind_Raise_eq _ _ w _ w) in H
         by (rewrite read_csv_run, Hfile; reflexivity);
       congruence.
  destruct (parse_csv text) as [df|e0] eqn:Hparse.
  2: { unfold generate_optimal_parameter_table in H.
       rewrite (run_bind_Raise_eq _ _ w e0 w) in H
         by (rewrite read_csv_run, Hfile, Hparse; reflexivity).
       congruence. }
  destruct (summarize df) as [t|e0] eqn:Hsum.
  2: { rewrite (generate_summarize_raises _ _ _ _ _ _ _ _ _ Hfile Hparse Hsum) in H.
       congruence. }
  rewrite (generate_after_summary _ _ _ _ _ _ Hfile Hparse Hsum) in H.
  destruct (negb (String.eqb output_path "") && negb (is_file (fs w !! output_path)));
    [|congruence].
  destruct (is_directory (fs w !! csv_path_of output_path)).
  { injection H as _ <-. reflexivity. }
  destruct (is_directory (fs w !! html_path_of output_path)); [|discriminate H].
  injection H as _ <-. reflexivity.
Qed.

(** Property X12.  The two files are not written together: when a directory sits at the
    path of the HTML file, the call fails after it has made the output
    directory and written the CSV file, and prints nothing. *)
Theorem html_failure_leaves_csv w input_path output_path text df t :
  fs w !! input_path = Some (File text) ->
  parse_csv text = Ok df ->
  summarize df = Ok t ->
  output_path <> "" ->
  is_file (fs w !! output_path) = false ->
  is_directory (fs w !! csv_path_of output_path) = false ->
  is_directory (fs w !! html_path_of output_path) = true ->
  exists w',
    run (generate_optimal_parameter_table parse_csv render_csv render_html
           input_path output_path) w
    = (Raise (IsADirectoryError (html_path_of output_path)), w') /\
    fs w' !! csv_path_of output_path = Some (File (render_csv t)) /\
    fs w' !! output_path = Some Directory /\
    fs w' !! html_path_of output_path = Some Directory /\
    stdout w' = stdout w.
Proof.
  intros Hfile Hparse Hsum Hout Hdir Hcsv Hhtml.
  rewrite (generate_after_summary _ _ _ _ _ _ Hfile Hparse Hsum).
  apply String.eqb_neq in Hout. rewrite Hout, Hdir, Hcsv, Hhtml. simpl.
  eexists. split; [reflexivity|]. cbn [fs stdout].
  split; [apply lookup_insert_eq|]. split; [|split; [|reflexivity]].
  - rewrite lookup_insert_ne by apply csv_path_ne. apply lookup_insert_eq.
  - rewrite lookup_insert_ne by apply csv_html_paths_differ.
    rewrite lookup_insert_ne by (apply not_eq_sym, html_path_ne).
    destruct (fs w !! html_path_of output_path) as [[|?]|]; try discriminate. reflexivity.
Qed.

End CallFacts.

Lemma failure_prints_nothing_witness :
  stdout (snd (run (generate_optimal_parameter_table example_parse example_csv example_html
                      "results.csv" "out") world_html_blocked))
  = stdout world_html_blocked.
Proof.
  apply (failure_prints_nothing example_parse example_csv example_html
           world_html_blocked "results.csv" "out"
           (IsADirectoryError "out/optimal_parameters_summary_table.html")).
  vm_compute. reflexivity.
Defined.

Lemma html_failure_leaves_csv_witness :
  exists w',
    run (generate_optimal_parameter_table example_parse example_csv example_html
           "results.csv" "out") world_html_blocked
    = (Raise (IsADirectoryError (html_path_of "out")), w') /\
    fs w' !! csv_path_of "out" = Some (File (example_csv scenario_summary)) /\
    fs w' !! "out" = Some Directory /\
    fs w' !! html_path_of "out" = Some Directory /\
    stdout w' = stdout world_html_blocked.
Proof.
  apply (html_failure_leaves_csv example_parse example_csv example_html
           world_html_blocked "results.csv" "out" scenario_text scenario).
  - reflexivity.
  - reflexivity.
  - reflexivity.
  - discriminate.
  - reflexivity.
  - reflexivity.
  - reflexivity.
Defined.
